(** * pm: subscriber registry, interceptor chain and pull pipeline

    A shallow embedding of package [pm]'s [Subscriber]
    ([HandleSubscriptionFunc], [HandleSubscriptionFuncMap], [Run] and
    [Close]), of its [SubscriptionInfo] and [SubscriptionInterceptor]
    declarations, and of [middleware/pm_autoack/pm_autoack.go].

    Goroutines are modelled by explicit program counters and an
    interleaving step function; the [sync.RWMutex] by its reader count and
    writer flag; Go's [error] by [option string] ([None] is [nil]). *)

From stdpp Require Import base option list strings gmap.

Set Default Proof Using "Type".

(** ** Data model *)

(** Go's [error] interface value: [nil] or an error carrying a message. *)
Definition error := option string.

(** [*pubsub.Message]: a reference into the store of live messages. *)
Definition MsgRef := nat.

(** The fields of [pubsub.Message] that handlers of this repository and
    its tests touch. *)
Record Message := mkMessage {
  Data : string;
  Attributes : gmap string string;
}.

(** What a handler can do that the outside observes. *)
Inductive Event :=
| EvAck (m : MsgRef)          (* m.Ack() was called *)
| EvNack (m : MsgRef)         (* m.Nack() was called *)
| EvLog (line : string)       (* log.Printf *)
| EvNote (tag : string).      (* any other effect of user code *)

Global Instance Event_eq_dec : EqDecision Event.
Proof. solve_decision. Defined.

(** The mutable surroundings of a handler: the messages it is handed by
    pointer, and the trace of calls made so far. *)
Record World := mkWorld {
  messages : gmap MsgRef Message;
  trace : list Event;
}.

Definition emit (e : Event) (w : World) : World :=
  {| messages := messages w; trace := trace w ++ [e] |}.

(** [context.Context], as far as cancellation goes: the background
    context, or a child made by [context.WithCancel] and named by the
    identity of its cancel function. *)
Inductive Context :=
| Background
| WithCancel (parent : Context) (id : nat).

(** A [context.CancelFunc] is named by the context it cancels. *)
Definition CancelFunc := nat.

(** A context is done once it or one of its ancestors was cancelled. *)
Fixpoint ctx_done (cancelled : gset nat) (ctx : Context) : bool :=
  match ctx with
  | Background => false
  | WithCancel parent id =>
      bool_decide (id ∈ cancelled) || ctx_done cancelled parent
  end.

(** [type MessageHandler = func(ctx context.Context, m *pubsub.Message) error] *)
Definition MessageHandler := Context → MsgRef → World → error * World.

(** [type SubscriptionInfo struct { SubscriptionID string }] *)
Record SubscriptionInfo := mkSubscriptionInfo {
  SubscriptionID : string;
}.

(** [type SubscriptionInterceptor =
      func(info *SubscriptionInfo, next MessageHandler) MessageHandler].
    An interceptor is a Go function like a handler is: calling it may act
    on the world before it returns the wrapped handler. *)
Definition SubscriptionInterceptor :=
  SubscriptionInfo → MessageHandler → World → MessageHandler * World.

(** [*pubsub.Subscriber], the broker's handle of a pull subscription;
    [ID] is what its method [ID()] returns. *)
Record PubsubSubscriber := mkPubsubSubscriber {
  ID : string;
}.

Record subscriptionHandler := mkSubscriptionHandler {
  subscription : PubsubSubscriber;
  handleFunc : MessageHandler;
}.

Record subscriberOptions := mkSubscriberOptions {
  subscriptionInterceptors : list SubscriptionInterceptor;
}.

(** [sync.RWMutex]: the number of read locks held and whether the write
    lock is held. *)
Record RWMutex := mkRWMutex {
  readers : nat;
  writer : bool;
}.

(** [type Subscriber struct]; the [pubsubClient] field is never read by
    the functions below and is left out. *)
Record Subscriber := mkSubscriber {
  mu : RWMutex;
  opts : subscriberOptions;
  subscriptionHandlers : gmap string subscriptionHandler;
  cancel : option CancelFunc;
}.

(** [NewSubscriber], the options already applied. *)
Definition NewSubscriber (o : subscriberOptions) : Subscriber :=
  {| mu := {| readers := 0; writer := false |};
     opts := o;
     subscriptionHandlers := ∅;
     cancel := None |}.

Definition with_mu (s : Subscriber) (m : RWMutex) : Subscriber :=
  {| mu := m; opts := opts s;
     subscriptionHandlers := subscriptionHandlers s; cancel := cancel s |}.

Definition with_handlers (s : Subscriber)
    (hs : gmap string subscriptionHandler) : Subscriber :=
  {| mu := mu s; opts := opts s; subscriptionHandlers := hs;
     cancel := cancel s |}.

(** ** The read/write lock

    Each operation is one atomic step and returns [None] while the caller
    has to wait (or, for an unlock of a lock that is not held, where Go
    stops the program; no path below gets there). Go's lock also holds
    new readers back while a writer is waiting; that only removes
    interleavings, none of the schedules exhibited below takes a read
    lock while a writer waits, and where a step is shown to exist it is
    one that this rule does not hold back. *)
Module RW.

Definition RLock (m : RWMutex) : option RWMutex :=
  if writer m then None
  else Some {| readers := S (readers m); writer := false |}.

Definition RUnlock (m : RWMutex) : option RWMutex :=
  match readers m with
  | 0 => None
  | S n => Some {| readers := n; writer := writer m |}
  end.

Definition Lock (m : RWMutex) : option RWMutex :=
  if writer m then None
  else match readers m with
       | 0 => Some {| readers := 0; writer := true |}
       | S _ => None
       end.

Definition Unlock (m : RWMutex) : option RWMutex :=
  if writer m then Some {| readers := readers m; writer := false |}
  else None.

End RW.

(** ** [HandleSubscriptionFunc] *)

(** The message of
    [fmt.Errorf("handler for subscription '%s' is already registered", id)]. *)
Definition already_registered (id : string) : string :=
  "handler for subscription '" +:+ id +:+ "' is already registered".

(** Where a call of [HandleSubscriptionFunc] stands. *)
Inductive Pc :=
| AtRLock                    (* s.mu.RLock() *)
| AtCheck                    (* if _, ok := s.subscriptionHandlers[id]; ok *)
| AtRUnlock                  (* s.mu.RUnlock() *)
| AtLock                     (* s.mu.Lock() *)
| AtInsert                   (* s.subscriptionHandlers[id] = &subscriptionHandler{...} *)
| AtUnlock                   (* s.mu.Unlock() *)
| Returned (err : error).    (* return err *)

Global Instance Pc_eq_dec : EqDecision Pc.
Proof. solve_decision. Defined.

(** One call in progress: its two arguments and its program counter. *)
Record Call := mkCall {
  arg_subscription : PubsubSubscriber;
  arg_f : MessageHandler;
  pc : Pc;
}.

Definition call (sub : PubsubSubscriber) (f : MessageHandler) : Call :=
  {| arg_subscription := sub; arg_f := f; pc := AtRLock |}.

Definition at_pc (c : Call) (p : Pc) : Call :=
  {| arg_subscription := arg_subscription c; arg_f := arg_f c; pc := p |}.

(** One atomic step of a call on the shared subscriber; [None] when the
    call is waiting for the lock or has returned. On the duplicate branch
    the function returns straight from the check: no [RUnlock] is
    executed on that path. *)
Definition call_step (s : Subscriber) (c : Call) : option (Subscriber * Call) :=
  match pc c with
  | AtRLock =>
      m ← RW.RLock (mu s); Some (with_mu s m, at_pc c AtCheck)
  | AtCheck =>
      match subscriptionHandlers s !! ID (arg_subscription c) with
      | Some _ =>
          Some (s, at_pc c (Returned (Some (already_registered (ID (arg_subscription c))))))
      | None => Some (s, at_pc c AtRUnlock)
      end
  | AtRUnlock =>
      m ← RW.RUnlock (mu s); Some (with_mu s m, at_pc c AtLock)
  | AtLock =>
      m ← RW.Lock (mu s); Some (with_mu s m, at_pc c AtInsert)
  | AtInsert =>
      Some (with_handlers s
              (<[ID (arg_subscription c) :=
                   {| subscription := arg_subscription c;
                      handleFunc := arg_f c |}]> (subscriptionHandlers s)),
            at_pc c AtUnlock)
  | AtUnlock =>
      m ← RW.Unlock (mu s); Some (with_mu s m, at_pc c (Returned None))
  | Returned _ => None
  end.

(** A call running with no other goroutine in between, as from
    sequential code: [None] when it blocks for ever. *)
Fixpoint call_run (fuel : nat) (s : Subscriber) (c : Call)
    : option (Subscriber * error) :=
  match pc c with
  | Returned err => Some (s, err)
  | _ =>
      match fuel with
      | 0 => None
      | S fuel' =>
          match call_step s c with
          | Some (s', c') => call_run fuel' s' c'
          | None => None
          end
      end
  end.

(** The call has six statements. *)
Definition HandleSubscriptionFunc (s : Subscriber)
    (sub : PubsubSubscriber) (f : MessageHandler) : option (Subscriber * error) :=
  call_run 6 s (call sub f).

(** *** Calls made from several goroutines *)

(** The goroutines take steps one at a time; a schedule lists which
    goroutine moves next. A step of a goroutine that cannot move is not
    taken. *)
Definition pool_step (i : nat) (st : Subscriber * list Call)
    : option (Subscriber * list Call) :=
  c ← st.2 !! i;
  r ← call_step st.1 c;
  Some (r.1, <[i := r.2]> st.2).

Fixpoint pool_run (sched : list nat) (st : Subscriber * list Call)
    : option (Subscriber * list Call) :=
  match sched with
  | [] => Some st
  | i :: rest => st' ← pool_step i st; pool_run rest st'
  end.

Definition results (cs : list Call) : list (option error) :=
  (λ c, match pc c with Returned e => Some e | _ => None end) <$> cs.

(** ** [HandleSubscriptionFuncMap]

    [errgroup.Group]: every [eg.Go] starts a goroutine that runs the
    given function, records the first non-nil error it sees ([errOnce])
    and then signs off ([wg.Done]); [eg.Wait] returns the recorded error
    once every goroutine has signed off. *)

Record Goroutine := mkGoroutine {
  g_call : Call;
  g_done : bool;
}.

Record Group := mkGroup {
  goroutines : list Goroutine;
  g_err : error;
}.

(** The [funcMap] argument, a Go map keyed by handle pointer: distinct
    keys may well carry the same subscription id. *)
Definition FuncMap := list (PubsubSubscriber * MessageHandler).

(** [for sub, f := range funcMap { eg.Go(func() error { return s.HandleSubscriptionFunc(sub, f) }) }] *)
Definition spawn_all (funcMap : FuncMap) : Group :=
  {| goroutines := (λ e, {| g_call := call e.1 e.2; g_done := false |}) <$> funcMap;
     g_err := None |}.

(** [g.errOnce.Do(func() { g.err = err })], reached only with a non-nil
    error. *)
Definition errOnce (recorded err : error) : error :=
  match err with
  | None => recorded
  | Some _ => match recorded with Some _ => recorded | None => err end
  end.

(** One step of goroutine [i] of the group. *)
Definition eg_step (i : nat) (st : Subscriber * Group)
    : option (Subscriber * Group) :=
  g ← goroutines st.2 !! i;
  if g_done g then None
  else match pc (g_call g) with
       | Returned e =>
           Some (st.1,
                 {| goroutines := <[i := {| g_call := g_call g; g_done := true |}]>
                                    (goroutines st.2);
                    g_err := errOnce (g_err st.2) e |})
       | _ =>
           r ← call_step st.1 (g_call g);
           Some (r.1,
                 {| goroutines := <[i := {| g_call := r.2; g_done := false |}]>
                                    (goroutines st.2);
                    g_err := g_err st.2 |})
       end.

Fixpoint eg_run (sched : list nat) (st : Subscriber * Group)
    : option (Subscriber * Group) :=
  match sched with
  | [] => Some st
  | i :: rest => st' ← eg_step i st; eg_run rest st'
  end.

(** [eg.Wait()]: [None] while some goroutine has not signed off. *)
Definition Wait (g : Group) : option error :=
  if forallb g_done (goroutines g) then Some (g_err g) else None.

(** The call under a schedule of its goroutines: the subscriber it leaves
    and what [eg.Wait()] returns, if it does. *)
Definition HandleSubscriptionFuncMap (sched : list nat) (s : Subscriber)
    (funcMap : FuncMap) : option (Subscriber * option error) :=
  st ← eg_run sched (s, spawn_all funcMap);
  Some (st.1, Wait st.2).

(** No goroutine of the group can move and [Wait] cannot return. *)
Definition eg_deadlocked (st : Subscriber * Group) : Prop :=
  Wait st.2 = None ∧ ∀ i, eg_step i st = None.

(** ** The interceptor chain

    [Run]'s loop
    [for i := len(interceptors) - 1; i >= 0; i-- { last = interceptors[i](&subscriptionInfo, last) }],
    with [n] standing for [i + 1]; the world is the one each call of an
    interceptor leaves to the next. *)
Fixpoint chain_loop (ics : list SubscriptionInterceptor)
    (info : SubscriptionInfo) (n : nat) (last : MessageHandler) (w : World)
    : MessageHandler * World :=
  match n with
  | 0 => (last, w)
  | S i =>
      match (ics !! i : option SubscriptionInterceptor) with
      | Some ic => chain_loop ics info i (ic info last w).1 (ic info last w).2
      | None => (last, w)   (* index out of range; the loop starts below len *)
      end
  end.

(** [last := h.handleFunc], then the loop. *)
Definition build_chain (ics : list SubscriptionInterceptor)
    (info : SubscriptionInfo) (h : MessageHandler) (w : World)
    : MessageHandler * World :=
  chain_loop ics info (length ics) h w.

(** The function [Run] hands to [Receive]:
    [func(ctx context.Context, m *pubsub.Message) { _ = last(ctx, m) }]. *)
Definition callback (last : MessageHandler)
    : Context → MsgRef → World → World :=
  λ ctx m w, (last ctx m w).2.

(** ** [pm_autoack] *)

Definition Ack (m : MsgRef) (w : World) : World := emit (EvAck m) w.
Definition Nack (m : MsgRef) (w : World) : World := emit (EvNack m) w.

Module pm_autoack.

(** [SubscriptionInterceptor()] returns the interceptor; the interceptor
    returns the closure below and does nothing else. *)
Definition SubscriptionInterceptor : SubscriptionInterceptor :=
  λ _ next w0,
    (λ ctx m w,
       let r := next ctx m w in
       let err := r.1 in
       match err with
       | Some _ => (err, Nack m r.2)
       | None => (err, Ack m r.2)
       end,
     w0).

End pm_autoack.

(** ** [Run] and [Close] *)

(** The goroutine [Run] starts for one registered subscription. It sits
    before its first statement, inside [Receive] with no callback
    running, inside [Receive] with the callback running on a message, or
    past its last statement. That [Receive] has at most one callback
    running is part of what is modelled from the spec below
    ([Receive_may_deliver]). *)
Inductive TaskState :=
| Spawned
| Receiving (last : MessageHandler)
| InCallback (last : MessageHandler) (m : MsgRef)
| Exited.

(** A goroutine with the variables its closure captures: [h],
    [subscriptionInfo] and [ctx]. *)
Record Task := mkTask {
  t_handler : subscriptionHandler;
  t_info : SubscriptionInfo;
  t_ctx : Context;
  t_state : TaskState;
}.

Definition in_state (t : Task) (st : TaskState) : Task :=
  {| t_handler := t_handler t; t_info := t_info t; t_ctx := t_ctx t;
     t_state := st |}.

(** The subscriber together with what lives outside its struct: which
    cancel functions have been called, the next unused context identity,
    the goroutines started by [Run], and the world the handlers act on. *)
Record Runtime := mkRuntime {
  subscriber : Subscriber;
  cancelled : gset nat;
  next_ctx : nat;
  tasks : list Task;
  world : World;
}.

Definition boot (s : Subscriber) (w : World) : Runtime :=
  {| subscriber := s; cancelled := ∅; next_ctx := 0; tasks := [];
     world := w |}.

(** [subscriptionInfo := SubscriptionInfo{SubscriptionID: h.subscription.ID()}] *)
Definition subscriptionInfo_of (h : subscriptionHandler) : SubscriptionInfo :=
  {| SubscriptionID := ID (subscription h) |}.

Definition spawn (ctx : Context) (h : subscriptionHandler) : Task :=
  {| t_handler := h; t_info := subscriptionInfo_of h; t_ctx := ctx;
     t_state := Spawned |}.

(** [Run]: derive a cancellable context, keep its cancel function, and
    start one goroutine per entry of the map (in the map's iteration
    order, which Go leaves unspecified). [Run] has no result. *)
Definition Run (ctx : Context) (r : Runtime) : Runtime :=
  let id := next_ctx r in
  let ctx' := WithCancel ctx id in
  let s := subscriber r in
  {| subscriber := {| mu := mu s; opts := opts s;
                      subscriptionHandlers := subscriptionHandlers s;
                      cancel := Some id |};
     cancelled := cancelled r;
     next_ctx := S id;
     tasks := tasks r ++ (spawn ctx' <$> (map_to_list (subscriptionHandlers s)).*2);
     world := world r |}.

(** Calling a function value: calling [nil] panics ([None]); calling a
    cancel function marks its context cancelled, and does nothing more
    when called again. *)
Definition call_cancel (f : option CancelFunc) (cs : gset nat)
    : option (gset nat) :=
  match f with
  | None => None
  | Some id => Some ({[id]} ∪ cs)
  end.

Definition with_cancelled (r : Runtime) (cs : gset nat) : Runtime :=
  {| subscriber := subscriber r; cancelled := cs; next_ctx := next_ctx r;
     tasks := tasks r; world := world r |}.

(** [Close]: [if s.cancel != nil { s.cancel() }]; [None] is a panic. *)
Definition Close (r : Runtime) : option Runtime :=
  match cancel (subscriber r) with
  | None => Some r
  | Some _ =>
      cs ← call_cancel (cancel (subscriber r)) (cancelled r);
      Some (with_cancelled r cs)
  end.

(** Modelled from the spec: the broker's pull primitive
    [subscription.Receive(ctx, f)], which belongs to the pub/sub client
    library and is not part of this repository. Spec, sections 5 and 6:
    it takes a cancellable context and a per-message callback and returns
    once cancelled or on unrecoverable error; within one subscription's
    consumption task, messages are handled one at a time in delivery
    order; once the cancellation signal has fired, tasks must stop
    requesting new deliveries, while already-dispatched handler
    invocations are allowed to complete. So [Receive] starts the callback
    on a message only while the goroutine is inside [Receive] with no
    callback running and its context is not done. *)
Definition Receive_may_deliver (cs : gset nat) (t : Task) : bool :=
  match t_state t with
  | Receiving _ => negb (ctx_done cs (t_ctx t))
  | Spawned | InCallback _ _ | Exited => false
  end.

(** Modelled from the spec: when the same [Receive] may return, with or
    without an error: only while no callback is running (it waits for
    the invocation already dispatched). *)
Definition Receive_may_return (t : Task) : bool :=
  match t_state t with
  | Receiving _ => true
  | Spawned | InCallback _ _ | Exited => false
  end.

(** What can happen next to a running pipeline: a goroutine started by
    [Run] takes its next statement, [Receive] (as modelled above) starts
    or ends a callback or returns, or the owner calls [Close]. *)
Inductive Action :=
| ABuild (i : nat)                    (* goroutine i builds its chain and calls Receive *)
| ABegin (i : nat) (m : MsgRef)       (* Receive of goroutine i starts the callback on m *)
| AEnd (i : nat)                      (* that callback returns *)
| AReturn (i : nat) (err : error)     (* Receive of goroutine i returns err *)
| AClose.                             (* the owner calls Close *)

Global Instance Action_eq_dec : EqDecision Action.
Proof. solve_decision. Defined.

Definition with_task (r : Runtime) (i : nat) (t : Task) (w : World) : Runtime :=
  {| subscriber := subscriber r; cancelled := cancelled r;
     next_ctx := next_ctx r; tasks := <[i := t]> (tasks r); world := w |}.

Definition step (a : Action) (r : Runtime) : option Runtime :=
  match a with
  | ABuild i =>
      t ← tasks r !! i;
      match t_state t with
      | Spawned =>
          let built := build_chain (subscriptionInterceptors (opts (subscriber r)))
                                   (t_info t) (handleFunc (t_handler t))
                                   (world r) in
          Some (with_task r i (in_state t (Receiving built.1)) built.2)
      | _ => None
      end
  | ABegin i m =>
      t ← tasks r !! i;
      match t_state t with
      | Receiving last =>
          if Receive_may_deliver (cancelled r) t
          then Some (with_task r i (in_state t (InCallback last m)) (world r))
          else None
      | _ => None
      end
  | AEnd i =>
      t ← tasks r !! i;
      match t_state t with
      | InCallback last m =>
          Some (with_task r i (in_state t (Receiving last))
                  (callback last (t_ctx t) m (world r)))
      | _ => None
      end
  | AReturn i err =>
      t ← tasks r !! i;
      if Receive_may_return t
      then (* if err != nil { log.Printf("%+v\n", err) } *)
           Some (with_task r i (in_state t Exited)
                   (match err with
                    | Some e => emit (EvLog e) (world r)
                    | None => world r
                    end))
      else None
  | AClose => Close r
  end.

Fixpoint exec (acts : list Action) (r : Runtime) : option Runtime :=
  match acts with
  | [] => Some r
  | a :: rest => r' ← step a r; exec rest r'
  end.

(** The goroutine an action belongs to. *)
Definition owner (a : Action) : option nat :=
  match a with
  | ABuild i | ABegin i _ | AEnd i | AReturn i _ => Some i
  | AClose => None
  end.

(** Number of times an action occurs in a run. *)
Definition occurrences (a : Action) (acts : list Action) : nat :=
  length (filter (λ b, b = a) acts).

Definition task_state (r : Runtime) (i : nat) : option TaskState :=
  t_state <$> tasks r !! i.

(** Wrapping by one interceptor, the step of the fold: the interceptor
    is called on the handler made so far, in the world left so far. *)
Definition wrap (info : SubscriptionInfo) (ic : SubscriptionInterceptor)
    (sofar : MessageHandler * World) : MessageHandler * World :=
  ic info sofar.1 sofar.2.

(** ** Concrete inputs used by the examples *)

Definition no_interceptors : subscriberOptions :=
  {| subscriptionInterceptors := [] |}.

(** Three handlers told apart by the note they leave. *)
Definition h_first : MessageHandler := λ _ _ w, (None, emit (EvNote "first") w).
Definition h_second : MessageHandler := λ _ _ w, (None, emit (EvNote "second") w).
Definition h_third : MessageHandler := λ _ _ w, (None, emit (EvNote "third") w).
Definition h_failing : MessageHandler := λ _ _ w, (Some "boom", w).

(** Two handles of the subscription [a] (two calls of
    [client.Subscriber] give two pointers with one id) and one of [b]. *)
Definition sub_a : PubsubSubscriber := {| ID := "a" |}.
Definition sub_a' : PubsubSubscriber := {| ID := "a" |}.
Definition sub_b : PubsubSubscriber := {| ID := "b" |}.

Definition empty_world : World := {| messages := ∅; trace := [] |}.

(** A subscriber on which [a] is registered with [h_first]. *)
Definition with_a_registered : Subscriber :=
  with_handlers (NewSubscriber no_interceptors)
    {[ "a" := {| subscription := sub_a; handleFunc := h_first |} ]}.

(** Two calls for the same id, both past the presence check before
    either inserts: goroutine 0 and goroutine 1 each take the read lock,
    find the id free and release the lock; then each takes the write
    lock, inserts and returns nil. *)
Definition racing_calls : Subscriber * list Call :=
  (NewSubscriber no_interceptors, [call sub_a h_first; call sub_a' h_second]).

Definition both_checked_then_first_inserts : list nat := [0; 0; 0; 1; 1; 1; 0; 0; 0].
Definition then_second_inserts : list nat := [1; 1; 1].

Definition stored_handler (s : Subscriber) (id : string) : option MessageHandler :=
  handleFunc <$> subscriptionHandlers s !! id.

(** A batch of two entries on a subscriber that already has [a]: the
    entry for [a] is a duplicate, the entry for [b] is new. *)
Definition batch_a_b : FuncMap := [(sub_a', h_second); (sub_b, h_third)].

(** Goroutine 0 runs to its error and signs off; goroutine 1 then gets
    as far as [s.mu.Lock()]. *)
Definition duplicate_first : list nat := [0; 0; 0; 1; 1; 1].

(** Goroutine 1 registers [b] and signs off before goroutine 0 runs. *)
Definition duplicate_last : list nat := [1; 1; 1; 1; 1; 1; 1; 0; 0; 0].

(** Number of times an event occurs in the trace of a world. *)
Definition count_ev (e : Event) (w : World) : nat :=
  length (filter (λ x, x = e) (trace w)).

(** A handler that leaves a note each time it is entered, then goes on
    as [next]. *)
Definition probe (tag : string) (next : MessageHandler) : MessageHandler :=
  λ ctx m w, next ctx m (emit (EvNote tag) w).

(** A handler that leaves the notes with the given tag as they are. *)
Definition quiet (tag : string) (next : MessageHandler) : Prop :=
  ∀ ctx m w, count_ev (EvNote tag) (next ctx m w).2 = count_ev (EvNote tag) w.

(** The two interceptors and the handler of [TestSubscriber_Run]: each
    interceptor replaces the attributes of the message and goes on; the
    handler acks and reports what it finds under [intercepted]. *)
Definition set_attributes (m : MsgRef) (attrs : gmap string string)
    (w : World) : World :=
  {| messages := alter (λ msg, {| Data := Data msg; Attributes := attrs |}) m (messages w);
     trace := trace w |}.

Definition intercept_abc : SubscriptionInterceptor :=
  λ _ next w0,
    (λ ctx m w, next ctx m (set_attributes m {[ "intercepted" := "abc" ]} w), w0).

Definition intercept_true : SubscriptionInterceptor :=
  λ _ next w0,
    (λ ctx m w, next ctx m (set_attributes m {[ "intercepted" := "true" ]} w), w0).

Definition h_reporting : MessageHandler :=
  λ _ m w,
    let w1 := Ack m w in
    match messages w1 !! m ≫= λ msg, Attributes msg !! "intercepted" with
    | Some v => (None, emit (EvNote v) w1)
    | None => (None, emit (EvNote "no attribute") w1)
    end.

Definition one_message : World :=
  {| messages := {[ 7 := {| Data := "test"; Attributes := ∅ |} ]}; trace := [] |}.

(** ** What holds of a pipeline started by one [Run] *)

(** A goroutine started by [Run ctx] with cancel function [id] under the
    options [o]: its context is the one derived in [Run], its descriptor
    is the one built from its handle, and once it has entered [Receive]
    the handler it holds is the chain built from its registered
    function. *)
Definition wired (ctx : Context) (id : nat) (o : subscriberOptions)
    (t : Task) : Prop :=
  t_ctx t = WithCancel ctx id
  ∧ t_info t = subscriptionInfo_of (t_handler t)
  ∧ match t_state t with
    | Receiving last | InCallback last _ =>
        ∃ at_build : World,
          last = (build_chain (subscriptionInterceptors o) (t_info t)
                    (handleFunc (t_handler t)) at_build).1
    | Spawned | Exited => True
    end.

Definition pipeline_inv (ctx : Context) (id : nat) (o : subscriberOptions)
    (r : Runtime) : Prop :=
  cancel (subscriber r) = Some id
  ∧ opts (subscriber r) = o
  ∧ Forall (wired ctx id o) (tasks r).

(** 1 while goroutine [i] has not built its chain yet, else 0. *)
Definition unbuilt (r : Runtime) (i : nat) : nat :=
  match task_state r i with
  | Some Spawned => 1
  | _ => 0
  end.

(** 1 while the callback of goroutine [i] is running, else 0. *)
Definition in_flight (r : Runtime) (i : nat) : nat :=
  match task_state r i with
  | Some (InCallback _ _) => 1
  | _ => 0
  end.

(** Every goroutine's context is done. *)
Definition all_done (r : Runtime) : Prop :=
  Forall (λ t, ctx_done (cancelled r) (t_ctx t) = true) (tasks r).

(** What a goroutine captured when it was started: its handler, its
    descriptor and its context. *)
Definition captured (t : Task) : subscriptionHandler * SubscriptionInfo * Context :=
  (t_handler t, t_info t, t_ctx t).

(** A subscriber with the two interceptors of [TestSubscriber_Run] and
    one registered handler, and a run of its pipeline: the goroutine
    builds its chain, a message is handed over, the callback returns. *)
Definition test_subscriber : Subscriber :=
  {| mu := {| readers := 0; writer := false |};
     opts := {| subscriptionInterceptors := [intercept_abc; intercept_true] |};
     subscriptionHandlers :=
       {[ "a" := {| subscription := sub_a; handleFunc := h_reporting |} ]};
     cancel := None |}.

Definition started : Runtime := Run Background (boot test_subscriber one_message).

Definition handed_over : list Action := [ABuild 0; ABegin 0 7].

(** A pipeline of two subscriptions, both inside [Receive], the first
    with a failing handler in its callback. *)
Definition two_subscriptions : Subscriber :=
  {| mu := {| readers := 0; writer := false |};
     opts := no_interceptors;
     subscriptionHandlers :=
       {[ "a" := {| subscription := sub_a; handleFunc := h_failing |};
          "b" := {| subscription := sub_b; handleFunc := h_first |} ]};
     cancel := None |}.

Definition task_a (st : TaskState) : Task :=
  {| t_handler := {| subscription := sub_a; handleFunc := h_failing |};
     t_info := {| SubscriptionID := "a" |};
     t_ctx := WithCancel Background 0;
     t_state := st |}.

Definition task_b (st : TaskState) : Task :=
  {| t_handler := {| subscription := sub_b; handleFunc := h_first |};
     t_info := {| SubscriptionID := "b" |};
     t_ctx := WithCancel Background 0;
     t_state := st |}.

Definition both_receiving (a_state : TaskState) : Runtime :=
  {| subscriber := two_subscriptions; cancelled := ∅; next_ctx := 1;
     tasks := [task_a a_state; task_b (Receiving h_first)];
     world := one_message |}.

(** ** Registration under arbitrary schedules *)

(** The calls a batch of registrations starts with. *)
Definition fresh_calls (entries : FuncMap) : list Call :=
  (λ e, call e.1 e.2) <$> entries.

(** 1 for a call that holds a read lock: between [RLock] and [RUnlock],
    or returned from the duplicate branch, which has no [RUnlock]. *)
Definition holds_read (c : Call) : nat :=
  match pc c with
  | AtCheck | AtRUnlock | Returned (Some _) => 1
  | _ => 0
  end.

(** 1 for a call that holds the write lock: between [Lock] and [Unlock]. *)
Definition holds_write (c : Call) : nat :=
  match pc c with
  | AtInsert | AtUnlock => 1
  | _ => 0
  end.

(** The lock counts what the calls hold, on top of the read locks that
    were held before ([leaked]). *)
Definition lock_inv (leaked : nat) (s : Subscriber) (cs : list Call) : Prop :=
  readers (mu s) = leaked + sum_list_with holds_read cs
  ∧ sum_list_with holds_write cs = (if writer (mu s) then 1 else 0)
  ∧ (writer (mu s) = true → readers (mu s) = 0).

(** Every entry of the registry sits under the id of its own handle. *)
Definition keyed_by_id (s : Subscriber) : Prop :=
  ∀ k h, subscriptionHandlers s !! k = Some h → ID (subscription h) = k.

(** The id a call registers. *)
Definition call_id (c : Call) : string := ID (arg_subscription c).

(** The entry a call stores. *)
Definition call_entry (c : Call) : subscriptionHandler :=
  {| subscription := arg_subscription c; handleFunc := arg_f c |}.


(** ** Counting what building a chain leaves behind *)








(** ** Further runs of the pipeline *)

(** [Receive] hands the messages [ms] to goroutine [i] one after the
    other, each callback returning before the next starts. *)
Definition deliveries (i : nat) (ms : list MsgRef) : list Action :=
  ms ≫= λ m, [ABegin i m; AEnd i].

(** The seven moves of a call, as a relation: what [call_step] does,
    statement by statement. *)
Inductive call_move (s : Subscriber) (c : Call) : Subscriber → Call → Prop :=
| move_RLock :
    pc c = AtRLock → writer (mu s) = false →
    call_move s c
      (with_mu s {| readers := S (readers (mu s)); writer := false |})
      (at_pc c AtCheck)
| move_duplicate h :
    pc c = AtCheck → subscriptionHandlers s !! call_id c = Some h →
    call_move s c s (at_pc c (Returned (Some (already_registered (call_id c)))))
| move_free :
    pc c = AtCheck → subscriptionHandlers s !! call_id c = None →
    call_move s c s (at_pc c AtRUnlock)
| move_RUnlock n :
    pc c = AtRUnlock → readers (mu s) = S n →
    call_move s c
      (with_mu s {| readers := n; writer := writer (mu s) |})
      (at_pc c AtLock)
| move_Lock :
    pc c = AtLock → readers (mu s) = 0 → writer (mu s) = false →
    call_move s c
      (with_mu s {| readers := 0; writer := true |})
      (at_pc c AtInsert)
| move_Insert :
    pc c = AtInsert →
    call_move s c
      (with_handlers s (<[call_id c := call_entry c]> (subscriptionHandlers s)))
      (at_pc c AtUnlock)
| move_Unlock :
    pc c = AtUnlock → writer (mu s) = true →
    call_move s c
      (with_mu s {| readers := readers (mu s); writer := false |})
      (at_pc c (Returned None)).


(** What the registry may hold after a batch: what it held before, or
    the entry of one of the batch under its own id. *)
Definition from_before_or_batch (s0 : Subscriber) (entries : FuncMap)
    (s : Subscriber) : Prop :=
  ∀ k h, subscriptionHandlers s !! k = Some h →
    subscriptionHandlers s0 !! k = Some h
    ∨ ∃ e, e ∈ entries ∧ k = ID e.1
           ∧ h = {| subscription := e.1; handleFunc := e.2 |}.

(** What the group has recorded agrees with what its goroutines have
    signed off with. *)
Definition group_inv (g : Group) : Prop :=
  Forall (λ x, g_done x = true → ∃ e, pc (g_call x) = Returned e) (goroutines g)
  ∧ (g_err g = None →
       Forall (λ x, g_done x = true → pc (g_call x) = Returned None) (goroutines g))
  ∧ (∀ m, g_err g = Some m →
       ∃ j x, goroutines g !! j = Some x ∧ g_done x = true
              ∧ pc (g_call x) = Returned (Some m)).

(** ** A batch of registrations under ids that are new and distinct *)







(** ** Registration: sequential calls *)

Section sequential.
Context (s : Subscriber) (sub : PubsubSubscriber) (f : MessageHandler).

(** A first registration under a free lock inserts the handler and
    returns nil. *)
Lemma HandleSubscriptionFunc_fresh :
  mu s = {| readers := 0; writer := false |} →
  subscriptionHandlers s !! ID sub = None →
  HandleSubscriptionFunc s sub f =
    Some (with_handlers s
            (<[ID sub := {| subscription := sub; handleFunc := f |}]>
               (subscriptionHandlers s)), None).
Proof.
  intros Hmu Hnone. destruct s as [m o hs c]; simpl in *. subst m.
  unfold HandleSubscriptionFunc, call. cbn. rewrite Hnone. reflexivity.
Qed.

(** The duplicate branch leaves with the read lock still held. *)
Lemma HandleSubscriptionFunc_duplicate_keeps_read_lock h :
  writer (mu s) = false →
  subscriptionHandlers s !! ID sub = Some h →
  ∃ s', HandleSubscriptionFunc s sub f = Some (s', Some (already_registered (ID sub)))
        ∧ readers (mu s') = S (readers (mu s)).
Proof.
  intros Hw Hsome. destruct s as [[n wr] o hs c]; simpl in *. subst wr.
  unfold HandleSubscriptionFunc, call. cbn. rewrite Hsome. cbn.
  eexists. split; reflexivity.
Qed.

(** With a read lock held and never released, a registration under a
    free id never returns. *)
Lemma HandleSubscriptionFunc_blocks_after_leak fuel :
  0 < readers (mu s) →
  subscriptionHandlers s !! ID sub = None →
  call_run fuel s (call sub f) = None.
Proof.
  intros Hr Hnone. destruct s as [[n wr] o hs c]; simpl in *.
  destruct n as [|n]; [lia|].
  destruct fuel as [|[|[|[|fuel]]]]; cbn; try reflexivity;
    destruct wr; cbn; try reflexivity; rewrite ?Hnone; cbn; try reflexivity.
  all: destruct n; reflexivity.
Qed.

End sequential.

(** C3. In every state in which a handler is registered under the id of
    the given subscription (and no writer holds the lock),
    [HandleSubscriptionFunc] returns the error
    "handler for subscription '<id>' is already registered", which names
    the id, and the registry is the one it was: the stored handler is
    still the earlier one and no entry was added, removed or replaced. *)
Theorem HandleSubscriptionFunc_duplicate_rejected
    (s : Subscriber) (sub : PubsubSubscriber) (f : MessageHandler)
    (h : subscriptionHandler) :
  writer (mu s) = false →
  subscriptionHandlers s !! ID sub = Some h →
  ∃ s',
    HandleSubscriptionFunc s sub f =
      Some (s', Some ("handler for subscription '" +:+ ID sub +:+ "' is already registered"))
    ∧ subscriptionHandlers s' = subscriptionHandlers s
    ∧ subscriptionHandlers s' !! ID sub = Some h
    ∧ opts s' = opts s ∧ cancel s' = cancel s.
Proof.
  intros Hw Hsome. destruct s as [[n wr] o hs c]; simpl in *. subst wr.
  unfold HandleSubscriptionFunc, call. cbn. rewrite Hsome. cbn.
  eexists. split; [reflexivity|]. cbn. auto.
Qed.

Lemma HandleSubscriptionFunc_duplicate_rejected_witness :
  ∃ s',
    HandleSubscriptionFunc with_a_registered sub_a' h_second =
      Some (s', Some "handler for subscription 'a' is already registered")
    ∧ subscriptionHandlers s' = subscriptionHandlers with_a_registered
    ∧ subscriptionHandlers s' !! "a" = Some {| subscription := sub_a; handleFunc := h_first |}
    ∧ opts s' = opts with_a_registered ∧ cancel s' = cancel with_a_registered.
Proof.
  apply (HandleSubscriptionFunc_duplicate_rejected with_a_registered sub_a' h_second
           {| subscription := sub_a; handleFunc := h_first |}).
  - reflexivity.
  - vm_compute. reflexivity.
Defined.

(** ** Registration: concurrent calls *)

(** C1 (the code departs from it). Two concurrent calls of
    [HandleSubscriptionFunc] for the id [a] on a new subscriber, under
    the schedule above: the first call returns nil with its handler
    stored, then the second call returns nil as well and its handler
    replaces the stored one. *)
Theorem HandleSubscriptionFunc_race_two_winners :
  ∃ mid fin,
    pool_run both_checked_then_first_inserts racing_calls = Some mid
    ∧ results mid.2 = [Some None; None]
    ∧ stored_handler mid.1 "a" = Some h_first
    ∧ pool_run then_second_inserts mid = Some fin
    ∧ results fin.2 = [Some None; Some None]
    ∧ stored_handler fin.1 "a" = Some h_second
    ∧ h_first Background 0 empty_world ≠ h_second Background 0 empty_world.
Proof.
  eexists _, _. split; [vm_compute; reflexivity|].
  split; [vm_compute; reflexivity|].
  split; [vm_compute; reflexivity|].
  split; [vm_compute; reflexivity|].
  split; [vm_compute; reflexivity|].
  split; [vm_compute; reflexivity|].
  vm_compute. discriminate.
Qed.

(** When the first call has returned before the second one checks, the
    second is turned away and the stored handler stays. *)
Example HandleSubscriptionFunc_one_after_the_other :
  ∃ fin,
    pool_run [0; 0; 0; 0; 0; 0; 1; 1] racing_calls = Some fin
    ∧ results fin.2 = [Some None; Some (Some (already_registered "a"))]
    ∧ stored_handler fin.1 "a" = Some h_first.
Proof.
  eexists. split; [vm_compute; reflexivity|].
  split; vm_compute; reflexivity.
Qed.

(** C6 (the code departs from it). With [a] registered,
    [HandleSubscriptionFuncMap] on a batch holding a second handler for
    [a] and a handler for [b]: when the duplicate is found first, its
    goroutine returns the error with the read lock still held, the
    goroutine for [b] waits at [s.mu.Lock()] for ever, no goroutine can
    move and [eg.Wait()] never returns; a registration has failed and the
    call returns no error. *)
Theorem HandleSubscriptionFuncMap_stuck_after_duplicate :
  ∃ st,
    eg_run duplicate_first (with_a_registered, spawn_all batch_a_b) = Some st
    ∧ (pc ∘ g_call) <$> goroutines st.2 =
        [Returned (Some (already_registered "a")); AtLock]
    ∧ readers (mu st.1) = 1
    ∧ eg_deadlocked st
    ∧ HandleSubscriptionFuncMap duplicate_first with_a_registered batch_a_b
        = Some (st.1, None).
Proof.
  eexists. split; [vm_compute; reflexivity|].
  split; [vm_compute; reflexivity|].
  split; [vm_compute; reflexivity|].
  split; [|vm_compute; reflexivity].
  split; [vm_compute; reflexivity|].
  intros [|[|i]]; vm_compute; reflexivity.
Qed.

(** Under the other order the call does what is expected of it: it
    returns the duplicate's error and [b] stays registered. *)
Example HandleSubscriptionFuncMap_duplicate_last :
  ∃ s',
    HandleSubscriptionFuncMap duplicate_last with_a_registered batch_a_b
      = Some (s', Some (Some (already_registered "a")))
    ∧ stored_handler s' "b" = Some h_third
    ∧ stored_handler s' "a" = Some h_first.
Proof.
  eexists. split; [vm_compute; reflexivity|].
  split; vm_compute; reflexivity.
Qed.

(** ** The interceptor chain *)

Section chain.
Context (info : SubscriptionInfo).

Lemma chain_loop_take (ics : list SubscriptionInterceptor) (n : nat) :
  n ≤ length ics →
  ∀ last w,
    chain_loop ics info n last w = foldr (wrap info) (last, w) (take n ics).
Proof.
  induction n as [|i IH]; intros Hn last w.
  - by rewrite take_0.
  - destruct (lookup_lt_is_Some_2 ics i) as [ic Hic]; [lia|].
    cbn [chain_loop]. rewrite Hic, IH by lia.
    rewrite (take_S_r _ _ _ Hic), foldr_app. cbn.
    f_equal. unfold wrap. cbn. by destruct (ic info last w).
Qed.

Lemma build_chain_foldr (ics : list SubscriptionInterceptor)
    (h : MessageHandler) (w : World) :
  build_chain ics info h w = foldr (wrap info) (h, w) ics.
Proof.
  unfold build_chain. rewrite chain_loop_take by lia.
  by rewrite firstn_all.
Qed.

End chain.

(** In [TestSubscriber_Run]'s setting the handler sees the attribute
    written by the second interceptor: the first one is the outer layer. *)
Example build_chain_first_is_outermost :
  trace ((build_chain [intercept_abc; intercept_true] {| SubscriptionID := "a" |}
            h_reporting one_message).1 Background 7 one_message).2
  = [EvAck 7; EvNote "true"].
Proof. vm_compute. reflexivity. Qed.

(** ** [pm_autoack] *)

Lemma count_ev_emit e e' w :
  count_ev e (emit e' w) = count_ev e w + (if decide (e' = e) then 1 else 0).
Proof.
  unfold count_ev, emit. cbn. rewrite filter_app, length_app. f_equal.
  rewrite filter_cons, filter_nil. by destruct (decide (e' = e)).
Qed.

(** The handler made by [pm_autoack], in one equation. *)
Lemma autoack_unfold info next w0 ctx m w :
  (pm_autoack.SubscriptionInterceptor info next w0).1 ctx m w =
    ((next ctx m w).1,
     {| messages := messages (next ctx m w).2;
        trace := trace (next ctx m w).2
                 ++ [match (next ctx m w).1 with
                     | None => EvAck m
                     | Some _ => EvNack m
                     end] |}).
Proof.
  unfold pm_autoack.SubscriptionInterceptor, Ack, Nack, emit. cbn.
  by destruct (next ctx m w) as [[e|] w1].
Qed.

Lemma count_ev_snoc e e' (w : World) ms :
  count_ev e {| messages := ms; trace := trace w ++ [e'] |}
  = count_ev e w + (if decide (e' = e) then 1 else 0).
Proof.
  unfold count_ev. cbn. rewrite filter_app, length_app. f_equal.
  rewrite filter_cons, filter_nil. by destruct (decide (e' = e)).
Qed.

(** C9. For every message and every inner handler [next]: calling the
    interceptor of [pm_autoack] does nothing but return a handler; that
    handler runs [next] once on the same context, message and world,
    returns the error [next] returned, and adds to what [next] did
    exactly one call, [m.Ack()] when [next] returned nil and [m.Nack()]
    when it returned an error. With a note left on entering [next], the
    world [next] runs in has that one note more and the same holds; when
    [next] itself leaves such notes alone, the note is found exactly once
    more afterwards. *)
Theorem autoack_acks_by_result
    (info : SubscriptionInfo) (next : MessageHandler) (composed_in : World)
    (ctx : Context) (m : MsgRef) (w : World) (tag : string) :
  let made := pm_autoack.SubscriptionInterceptor info next composed_in in
  let inner := next ctx m w in
  let outer := made.1 ctx m w in
  let entered := next ctx m (emit (EvNote tag) w) in
  let probed :=
    (pm_autoack.SubscriptionInterceptor info (probe tag next) composed_in).1
      ctx m w in
  made.2 = composed_in
  ∧ outer.1 = inner.1
  ∧ messages outer.2 = messages inner.2
  ∧ trace outer.2 =
      trace inner.2 ++ [match inner.1 with None => EvAck m | Some _ => EvNack m end]
  ∧ (count_ev (EvAck m) outer.2 = S (count_ev (EvAck m) inner.2) ↔ inner.1 = None)
  ∧ (count_ev (EvNack m) outer.2 = S (count_ev (EvNack m) inner.2) ↔ inner.1 ≠ None)
  ∧ (inner.1 = None → count_ev (EvNack m) outer.2 = count_ev (EvNack m) inner.2)
  ∧ (inner.1 ≠ None → count_ev (EvAck m) outer.2 = count_ev (EvAck m) inner.2)
  ∧ probed.1 = entered.1
  ∧ trace probed.2 =
      trace entered.2
      ++ [match entered.1 with None => EvAck m | Some _ => EvNack m end]
  ∧ (quiet tag next →
       count_ev (EvNote tag) probed.2 = S (count_ev (EvNote tag) w)).
Proof.
  intros made inner outer entered probed.
  subst made inner outer entered probed.
  rewrite !autoack_unfold. cbn [fst snd messages trace].
  split_and!; try done.
  - rewrite count_ev_snoc.
    destruct (next ctx m w).1; case_decide; split; intros; try done; lia.
  - rewrite count_ev_snoc.
    destruct (next ctx m w).1; case_decide; split; intros; try done; lia.
  - intros ->. rewrite count_ev_snoc. case_decide; [done|lia].
  - rewrite count_ev_snoc.
    destruct (next ctx m w).1; [|done]. intros _. case_decide; [done|lia].
  - intros Hq. unfold probe. rewrite count_ev_snoc, Hq, count_ev_emit.
    destruct (next ctx m (emit (EvNote tag) w)).1;
      repeat case_decide; try done; lia.
Qed.

Lemma autoack_acks_by_result_witness :
  quiet "entered" h_failing
  ∧ ((pm_autoack.SubscriptionInterceptor {| SubscriptionID := "a" |} h_failing
        empty_world).1 Background 7 one_message).1 = Some "boom"
  ∧ trace ((pm_autoack.SubscriptionInterceptor {| SubscriptionID := "a" |} h_failing
              empty_world).1 Background 7 one_message).2 = [EvNack 7]
  ∧ count_ev (EvNote "entered")
      ((pm_autoack.SubscriptionInterceptor {| SubscriptionID := "a" |}
          (probe "entered" h_failing) empty_world).1 Background 7 one_message).2
    = 1.
Proof.
  assert (Hq : quiet "entered" h_failing) by (intros ctx m w; reflexivity).
  split; [exact Hq|].
  pose proof (autoack_acks_by_result {| SubscriptionID := "a" |} h_failing
                empty_world Background 7 one_message "entered")
    as (_ & H1 & _ & H3 & _ & _ & _ & _ & _ & _ & Hcount).
  split; [exact H1|]. split; [exact H3|]. exact (Hcount Hq).
Defined.

(** ** The running pipeline *)

Lemma Close_total r : is_Some (Close r).
Proof. unfold Close. destruct (cancel (subscriber r)); cbn; eauto. Qed.

Lemma Close_inv r r' :
  Close r = Some r' →
  subscriber r' = subscriber r ∧ tasks r' = tasks r ∧ world r' = world r
  ∧ next_ctx r' = next_ctx r ∧ cancelled r ⊆ cancelled r'
  ∧ (∀ id, cancel (subscriber r) = Some id → id ∈ cancelled r').
Proof.
  unfold Close. destruct (cancel (subscriber r)) as [c|] eqn:E; cbn.
  - intros [= <-]. cbn. split_and!; try done.
    + apply union_subseteq_r.
    + intros id [= ->]. apply elem_of_union_l. by apply elem_of_singleton.
  - intros [= <-]. split_and!; done.
Qed.

(** Case analysis on an enabled step: which goroutine moved, from which
    state. *)
Ltac step_cases Hstep i t Hi Est :=
  match type of Hstep with
  | step ?a ?r = Some _ =>
      destruct a as [i|i ?m|i|i ?e|]; cbn in Hstep;
      [ destruct (tasks r !! i) as [t|] eqn:Hi; cbn in Hstep; [|done];
        destruct (t_state t) eqn:Est; try done
      | destruct (tasks r !! i) as [t|] eqn:Hi; cbn in Hstep; [|done];
        destruct (t_state t) eqn:Est; try done;
        destruct (Receive_may_deliver (cancelled r) t) eqn:?Hmay; try done
      | destruct (tasks r !! i) as [t|] eqn:Hi; cbn in Hstep; [|done];
        destruct (t_state t) eqn:Est; try done
      | destruct (tasks r !! i) as [t|] eqn:Hi; cbn in Hstep; [|done];
        unfold Receive_may_return in Hstep;
        destruct (t_state t) eqn:Est; try done
      | ]
  end.

Ltac moved_or_not i j Hi :=
  destruct (decide (i = j)) as [->|?];
  [ rewrite list_lookup_insert_eq by (by eapply lookup_lt_Some); cbn;
    rewrite ?Hi; cbn
  | rewrite list_lookup_insert_ne by done ].

(** A step leaves the subscriber alone, keeps the number of goroutines
    and never takes a cancellation back. *)
Lemma step_frame a r r' :
  step a r = Some r' →
  subscriber r' = subscriber r
  ∧ next_ctx r' = next_ctx r
  ∧ cancelled r ⊆ cancelled r'
  ∧ length (tasks r') = length (tasks r).
Proof.
  intros Hstep. step_cases Hstep i t Hi Est.
  5: { apply Close_inv in Hstep as (? & -> & _ & ? & ? & _). done. }
  all: injection Hstep as <-; cbn; by rewrite length_insert.
Qed.

(** A step moves at most the goroutine it belongs to, and of that one
    only the state. *)
Lemma step_task a r r' j t' :
  step a r = Some r' →
  tasks r' !! j = Some t' →
  ∃ t, tasks r !! j = Some t
       ∧ t_handler t' = t_handler t ∧ t_info t' = t_info t ∧ t_ctx t' = t_ctx t
       ∧ (owner a ≠ Some j → t' = t).
Proof.
  intros Hstep. step_cases Hstep i t Hi Est.
  5: { apply Close_inv in Hstep as (_ & -> & _). eauto 10. }
  all: injection Hstep as <-; cbn; intros Hj.
  all: destruct (decide (i = j)) as [->|Hne];
    [ rewrite list_lookup_insert_eq in Hj by (by eapply lookup_lt_Some);
      injection Hj as <-; exists t; cbn; split_and!; try done; congruence
    | rewrite list_lookup_insert_ne in Hj by done;
      exists t'; split_and!; done ].
Qed.

Lemma step_task_other a r r' j :
  step a r = Some r' → owner a ≠ Some j → tasks r' !! j = tasks r !! j.
Proof.
  intros Hstep Hown.
  destruct (tasks r' !! j) as [t'|] eqn:Hj.
  - destruct (step_task _ _ _ _ _ Hstep Hj) as (t & Ht & _ & _ & _ & Heq).
    by rewrite Ht, Heq.
  - apply lookup_ge_None in Hj. symmetry. apply lookup_ge_None.
    destruct (step_frame _ _ _ Hstep) as (_ & _ & _ & <-). done.
Qed.

Lemma Run_inv ctx s w :
  pipeline_inv ctx 0 (opts s) (Run ctx (boot s w)).
Proof.
  unfold pipeline_inv, Run; cbn. split_and!; try done.
  apply Forall_fmap, Forall_true. intros h. by unfold wired.
Qed.

Lemma step_pipeline_inv ctx id o a r r' :
  pipeline_inv ctx id o r → step a r = Some r' → pipeline_inv ctx id o r'.
Proof.
  intros (Hc & Ho & Hall) Hstep.
  destruct (step_frame _ _ _ Hstep) as (Hs & _).
  unfold pipeline_inv. rewrite Hs. split_and!; try done.
  step_cases Hstep i t Hi Est.
  5: { apply Close_inv in Hstep as (_ & -> & _). done. }
  all: pose proof (proj1 (Forall_lookup _ _) Hall i t Hi) as (Hctx & Hinfo & Hst).
  all: rewrite Est in Hst.
  all: injection Hstep as <-; cbn; apply Forall_insert; [done|].
  all: unfold wired; cbn; split_and!; try done.
  rewrite Ho. by eexists.
Qed.

Lemma exec_pipeline_inv ctx id o acts :
  ∀ r r', pipeline_inv ctx id o r → exec acts r = Some r' →
          pipeline_inv ctx id o r'.
Proof.
  induction acts as [|a acts IH]; intros r r' Hinv Hex; cbn in Hex.
  - by injection Hex as <-.
  - destruct (step a r) as [r1|] eqn:Hstep; cbn in Hex; [|done].
    eauto using step_pipeline_inv.
Qed.

Lemma occurrences_cons a b acts :
  occurrences a (b :: acts) =
    (if decide (b = a) then 1 else 0) + occurrences a acts.
Proof.
  unfold occurrences. rewrite filter_cons. by destruct (decide (b = a)).
Qed.



Lemma ctx_done_mono cs cs' ctx :
  cs ⊆ cs' → ctx_done cs ctx = true → ctx_done cs' ctx = true.
Proof.
  intros Hsub. induction ctx as [|p IH id]; cbn; [done|].
  rewrite !orb_true_iff, !bool_decide_eq_true.
  intros [Hin|Hp]; [left; by apply Hsub | right; by apply IH].
Qed.

Lemma step_all_done a r r' :
  all_done r → step a r = Some r' → all_done r'.
Proof.
  intros Hall Hstep. apply Forall_lookup. intros j t' Hj.
  destruct (step_task _ _ _ _ _ Hstep Hj) as (t & Ht & _ & _ & -> & _).
  destruct (step_frame _ _ _ Hstep) as (_ & _ & Hsub & _).
  eapply ctx_done_mono; [done|].
  by apply (proj1 (Forall_lookup _ _) Hall j t).
Qed.

(** Once every context is done [Receive] delivers to no goroutine. *)
Lemma all_done_no_delivery r i t :
  all_done r → tasks r !! i = Some t →
  Receive_may_deliver (cancelled r) t = false.
Proof.
  intros Hall Hi. pose proof (proj1 (Forall_lookup _ _) Hall i t Hi) as Hd.
  cbn in Hd. unfold Receive_may_deliver. rewrite Hd. by destruct (t_state t).
Qed.

(** Once every context is done no callback is started, and a callback
    that is running can only end. *)
Lemma step_in_flight a r r' i :
  all_done r → step a r = Some r' →
  (∀ j m, a ≠ ABegin j m)
  ∧ (if decide (a = AEnd i) then 1 else 0) + in_flight r' i = in_flight r i.
Proof.
  intros Hall Hstep. step_cases Hstep j t Hj Est.
  2: { rewrite (all_done_no_delivery _ _ _ Hall Hj) in Hmay. done. }
  4: { apply Close_inv in Hstep as (_ & Ht & _). split; [done|].
       unfold in_flight, task_state. rewrite Ht. by case_decide. }
  all: split; [done|].
  all: injection Hstep as <-; unfold in_flight, task_state; cbn.
  all: moved_or_not j i Hj; rewrite ?Est; case_decide; try done; congruence.
Qed.

Lemma exec_in_flight acts i :
  ∀ r r', all_done r → exec acts r = Some r' →
          (∀ j m, ABegin j m ∉ acts)
          ∧ occurrences (AEnd i) acts + in_flight r' i = in_flight r i
          ∧ all_done r'.
Proof.
  induction acts as [|a acts IH]; intros r r' Hall Hex; cbn in Hex.
  - injection Hex as <-. split_and!; try done. intros j m. apply not_elem_of_nil.
  - destruct (step a r) as [r1|] eqn:Hstep; cbn in Hex; [|done].
    destruct (step_in_flight _ _ _ i Hall Hstep) as (Hnb & H1).
    destruct (IH _ _ (step_all_done _ _ _ Hall Hstep) Hex) as (Hno & H2 & Hd).
    split_and!; [| |done].
    + intros j m [Heq|Hin]%elem_of_cons; [by eapply Hnb | by eapply Hno].
    + rewrite occurrences_cons. lia.
Qed.

Lemma in_flight_le_1 r i : in_flight r i ≤ 1.
Proof. unfold in_flight. destruct (task_state r i) as [[]|]; lia. Qed.

Lemma unbuilt_le_1 r i : unbuilt r i ≤ 1.
Proof. unfold unbuilt. destruct (task_state r i) as [[]|]; lia. Qed.

Lemma step_captured a r r' :
  step a r = Some r' → captured <$> tasks r' = captured <$> tasks r.
Proof.
  intros Hstep. apply list_eq. intros j. rewrite !list_lookup_fmap.
  destruct (tasks r' !! j) as [t'|] eqn:Hj.
  - destruct (step_task _ _ _ _ _ Hstep Hj) as (t & -> & Hh & Hi & Hc & _).
    cbn. unfold captured. by rewrite Hh, Hi, Hc.
  - apply lookup_ge_None in Hj.
    destruct (step_frame _ _ _ Hstep) as (_ & _ & _ & Hlen).
    rewrite Hlen in Hj. apply lookup_ge_None in Hj. by rewrite Hj.
Qed.

Lemma exec_frame acts :
  ∀ r r', exec acts r = Some r' →
          subscriber r' = subscriber r
          ∧ captured <$> tasks r' = captured <$> tasks r.
Proof.
  induction acts as [|a acts IH]; intros r r' Hex; cbn in Hex.
  - by injection Hex as <-.
  - destruct (step a r) as [r1|] eqn:Hstep; cbn in Hex; [|done].
    destruct (IH _ _ Hex) as (-> & ->).
    destruct (step_frame _ _ _ Hstep) as (-> & _).
    by rewrite (step_captured _ _ _ Hstep).
Qed.


(** In every run the goroutines are those of the registered handlers, in
    the order [Run] started them. *)
Lemma exec_handlers s w ctx acts r :
  exec acts (Run ctx (boot s w)) = Some r →
  t_handler <$> tasks r = (map_to_list (subscriptionHandlers s)).*2.
Proof.
  intros Hex. destruct (exec_frame _ _ _ Hex) as (_ & Hcap).
  assert (Hh : t_handler <$> tasks r = (λ c, c.1.1) <$> (captured <$> tasks r))
    by (rewrite <- list_fmap_compose; by apply list_fmap_ext).
  rewrite Hh, Hcap. cbn. rewrite <- !list_fmap_compose.
  apply list_eq. intros j. rewrite !list_lookup_fmap.
  by destruct (map_to_list (subscriptionHandlers s) !! j).
Qed.

Lemma exec_registered s w ctx acts r i t :
  exec acts (Run ctx (boot s w)) = Some r →
  tasks r !! i = Some t →
  i < length (tasks (Run ctx (boot s w)))
  ∧ ∃ k, subscriptionHandlers s !! k = Some (t_handler t).
Proof.
  intros Hex Ht. pose proof (exec_handlers _ _ _ _ _ Hex) as Hh.
  assert (Hl : (t_handler <$> tasks r) !! i = Some (t_handler t))
    by (by rewrite list_lookup_fmap, Ht).
  split.
  - destruct (exec_frame _ _ _ Hex) as (_ & Hcap).
    rewrite <- (length_fmap captured), <- Hcap, length_fmap.
    by eapply lookup_lt_Some.
  - rewrite Hh in Hl.
    apply list_lookup_fmap_Some in Hl as ([k h'] & Heq & Hkh).
    exists k. apply elem_of_map_to_list. cbn in Heq. subst h'.
    by eapply list_elem_of_lookup_2.
Qed.



(** ** Counting builds and what they leave *)

Lemma sum_list_with_insert {A} (f : A → nat) (l : list A) i x y :
  l !! i = Some x →
  sum_list_with f (<[i := y]> l) + f x = sum_list_with f l + f y.
Proof.
  revert i. induction l as [|a l IH]; intros [|i] Hi; simpl in *; try done.
  - injection Hi as ->. lia.
  - specialize (IH _ Hi). lia.
Qed.








(** ** The claims about [Run] and [Close] *)



(** The state of [started] after [handed_over]: the chain is built and
    the callback is running on message 7. *)
Lemma handed_over_state :
  exec handed_over started = Some
    (with_task started 0
       {| t_handler := {| subscription := sub_a; handleFunc := h_reporting |};
          t_info := {| SubscriptionID := "a" |};
          t_ctx := WithCancel Background 0;
          t_state := InCallback
                       (build_chain [intercept_abc; intercept_true]
                          {| SubscriptionID := "a" |} h_reporting one_message).1 7 |}
       one_message).
Proof. vm_compute. reflexivity. Defined.

(** C4. After [Close] on a subscriber started with [Run], whatever the
    pipeline did before: the context of every goroutine is done, so
    [Receive] (as modelled from the spec) starts no callback any more, in
    this state or in any later one; a callback that is running can still
    return, and in what follows at most one callback per goroutine
    returns. *)
Theorem Close_stops_new_invocations
    (s : Subscriber) (w : World) (ctx : Context)
    (pre : list Action) (r1 : Runtime) :
  exec pre (Run ctx (boot s w)) = Some r1 →
  ∃ r2,
    Close r1 = Some r2
    ∧ (∀ t, t ∈ tasks r2 → ctx_done (cancelled r2) (t_ctx t) = true)
    ∧ (∀ i m, step (ABegin i m) r2 = None)
    ∧ (∀ i t last m, tasks r2 !! i = Some t → t_state t = InCallback last m →
         is_Some (step (AEnd i) r2))
    ∧ (∀ post r3, exec post r2 = Some r3 →
         (∀ i m, ABegin i m ∉ post)
         ∧ (∀ i, occurrences (AEnd i) post ≤ 1)
         ∧ (∀ t, t ∈ tasks r3 → ctx_done (cancelled r3) (t_ctx t) = true)).
Proof.
  intros Hex.
  pose proof (exec_pipeline_inv _ _ _ _ _ _ (Run_inv ctx s w) Hex)
    as (Hc & _ & Hall).
  destruct (Close_total r1) as [r2 Hclose]. exists r2.
  destruct (Close_inv _ _ Hclose) as (_ & Ht & _ & _ & _ & Hin).
  specialize (Hin _ Hc).
  assert (Hdone : all_done r2).
  { unfold all_done. rewrite Ht. eapply Forall_impl; [exact Hall|].
    intros t (-> & _). cbn. by rewrite bool_decide_eq_true_2. }
  split_and!; [done| | | |].
  - by apply Forall_forall.
  - intros i m. cbn. destruct (tasks r2 !! i) as [t|] eqn:Hi; cbn; [|done].
    rewrite (all_done_no_delivery _ _ _ Hdone Hi). by destruct (t_state t).
  - intros i t last m Hi Est. cbn. rewrite Hi. cbn. rewrite Est. eauto.
  - intros post r3 Hpost. split_and!.
    + intros i m. by eapply (exec_in_flight post 0).
    + intros i. destruct (exec_in_flight post i _ _ Hdone Hpost) as (_ & Hn & _).
      pose proof (in_flight_le_1 r2 i). lia.
    + destruct (exec_in_flight post 0 _ _ Hdone Hpost) as (_ & _ & Hd).
      by apply Forall_forall.
Qed.

Lemma Close_stops_new_invocations_witness :
  ∃ r2,
    Close (with_task started 0
             {| t_handler := {| subscription := sub_a; handleFunc := h_reporting |};
                t_info := {| SubscriptionID := "a" |};
                t_ctx := WithCancel Background 0;
                t_state := InCallback
                             (build_chain [intercept_abc; intercept_true]
                                {| SubscriptionID := "a" |} h_reporting
                                one_message).1 7 |}
             one_message) = Some r2
    ∧ step (ABegin 0 8) r2 = None
    ∧ is_Some (step (AEnd 0) r2).
Proof.
  destruct (Close_stops_new_invocations test_subscriber one_message Background
              handed_over _ handed_over_state)
    as (r2 & Hclose & _ & Hno & Hend & _).
  exists r2. split; [exact Hclose|]. split; [apply Hno|].
  destruct (Close_inv _ _ Hclose) as (_ & Ht & _).
  eapply (Hend 0); [rewrite Ht; reflexivity | reflexivity].
Defined.

(** C5 (the code departs from it). What the code has: a
    [SubscriptionInfo] is its subscription id and nothing else, so two
    descriptors with one subscription id are the same value and no topic
    can be read from one; [Run] makes the descriptor of each registered
    subscription from the id of its handle alone, and in every run each
    goroutine still holds that value. *)
Theorem SubscriptionInfo_holds_the_subscription_id :
  (∀ a b : SubscriptionInfo, SubscriptionID a = SubscriptionID b → a = b)
  ∧ (∀ s w ctx acts r i t,
       exec acts (Run ctx (boot s w)) = Some r →
       tasks r !! i = Some t →
       (∃ k, subscriptionHandlers s !! k = Some (t_handler t))
       ∧ t_info t = {| SubscriptionID := ID (subscription (t_handler t)) |}).
Proof.
  split.
  - intros [a] [b]; cbn. by intros ->.
  - intros s w ctx acts r i t Hex Ht.
    destruct (exec_registered _ _ _ _ _ _ _ Hex Ht) as (_ & Hreg).
    pose proof (exec_pipeline_inv _ _ _ _ _ _ (Run_inv ctx s w) Hex)
      as (_ & _ & Hall).
    pose proof (proj1 (Forall_lookup _ _) Hall i t Ht) as (_ & Hinfo & _).
    split; done.
Qed.

Lemma SubscriptionInfo_holds_the_subscription_id_witness :
  ∃ t, tasks started !! 0 = Some t ∧ t_info t = {| SubscriptionID := "a" |}.
Proof.
  destruct SubscriptionInfo_holds_the_subscription_id as (_ & Hrun).
  eexists. split; [vm_compute; reflexivity|].
  destruct (Hrun test_subscriber one_message Background [] started 0 _
              eq_refl ltac:(vm_compute; reflexivity)) as (_ & Hinfo).
  exact Hinfo.
Defined.

(** Whether a goroutine can take a step depends on that goroutine and on
    the cancellations only. *)
Lemma step_enabled_local a j r r' :
  owner a = Some j →
  tasks r' !! j = tasks r !! j →
  cancelled r' = cancelled r →
  is_Some (step a r) → is_Some (step a r').
Proof.
  intros Hown Hj Hc.
  destruct a as [i|i m|i|i e|]; cbn in Hown; [| | | |done];
    injection Hown as ->; cbn; rewrite Hj, ?Hc;
    destruct (tasks r !! j) as [t|]; cbn; try (by intros [? [=]]).
  - destruct (t_state t); try (by intros [? [=]]); eauto.
  - destruct (t_state t); try (by intros [? [=]]).
    destruct (Receive_may_deliver _ _); [eauto | by intros [? [=]]].
  - destruct (t_state t); try (by intros [? [=]]); eauto.
  - destruct (Receive_may_return t); [eauto | by intros [? [=]]].
Qed.

(** C7. When [Receive] of a goroutine returns an error, the goroutine
    logs it and ends: the trace gets exactly one new entry, the log line
    with the error, the messages are untouched, and the goroutine takes
    no further step. The other goroutines are as they were and can take
    every step they could take before; the subscriber and the
    cancellations are untouched, so nothing reaches the caller of
    [Run]. *)
Theorem Receive_error_logged_and_contained
    (r : Runtime) (i : nat) (t : Task) (last : MessageHandler) (e : string) :
  tasks r !! i = Some t →
  t_state t = Receiving last →
  ∃ r',
    step (AReturn i (Some e)) r = Some r'
    ∧ task_state r' i = Some Exited
    ∧ trace (world r') = trace (world r) ++ [EvLog e]
    ∧ count_ev (EvLog e) (world r') = S (count_ev (EvLog e) (world r))
    ∧ messages (world r') = messages (world r)
    ∧ (∀ a, owner a = Some i → step a r' = None)
    ∧ (∀ j, j ≠ i → tasks r' !! j = tasks r !! j)
    ∧ (∀ a j, owner a = Some j → j ≠ i →
         is_Some (step a r) → is_Some (step a r'))
    ∧ subscriber r' = subscriber r
    ∧ cancelled r' = cancelled r.
Proof.
  intros Ht Est. cbn. rewrite Ht. cbn. unfold Receive_may_return. rewrite Est.
  eexists. split; [reflexivity|].
  assert (Hi : <[i := in_state t Exited]> (tasks r) !! i = Some (in_state t Exited))
    by (apply list_lookup_insert_eq; by eapply lookup_lt_Some).
  split_and!; try done.
  - unfold task_state. cbn. by rewrite Hi.
  - unfold with_task. cbn [world]. rewrite count_ev_emit.
    case_decide; [lia|done].
  - intros a Hown.
    destruct a as [k|k m|k|k e'|]; cbn in Hown; [| | | |done];
      injection Hown as ->; cbn; by rewrite Hi.
  - intros j Hne. cbn. by rewrite list_lookup_insert_ne.
  - intros a j Hown Hne. apply (step_enabled_local a j); [done| |done].
    cbn. by rewrite list_lookup_insert_ne.
Qed.

Lemma Receive_error_logged_and_contained_witness :
  ∃ r',
    step (AReturn 0 (Some "stream broken")) (both_receiving (Receiving h_failing))
      = Some r'
    ∧ task_state r' 0 = Some Exited
    ∧ trace (world r') = [EvLog "stream broken"]
    ∧ is_Some (step (ABegin 1 7) r').
Proof.
  destruct (Receive_error_logged_and_contained
              (both_receiving (Receiving h_failing)) 0
              (task_a (Receiving h_failing)) h_failing "stream broken"
              eq_refl eq_refl)
    as (r' & Hstep & Hexit & Hlog & _ & _ & _ & _ & Hsib & _).
  exists r'. split_and!; [exact Hstep | exact Hexit | exact Hlog |].
  apply (Hsib (ABegin 1 7) 1); [reflexivity | discriminate |].
  vm_compute. eauto.
Defined.

(** C8. When the handler of a message returns an error, the callback
    returns with the world exactly as the handler left it, so no
    [Ack] or [Nack] comes from the subscriber; the goroutine is back in
    [Receive], the other goroutines, the cancellations and the subscriber
    are as they were. With [pm_autoack] as the interceptor the same
    failure ends with the interceptor's [m.Nack()]; with no interceptor
    there is none. *)
Theorem handler_error_left_to_interceptors
    (r : Runtime) (i : nat) (t : Task) (last : MessageHandler)
    (m : MsgRef) (e : string) (w' : World) :
  tasks r !! i = Some t →
  t_state t = InCallback last m →
  last (t_ctx t) m (world r) = (Some e, w') →
  (∃ r',
     step (AEnd i) r = Some r'
     ∧ world r' = w'
     ∧ (∀ ev, count_ev ev (world r') = count_ev ev w')
     ∧ task_state r' i = Some (Receiving last)
     ∧ (∀ j, j ≠ i → tasks r' !! j = tasks r !! j)
     ∧ cancelled r' = cancelled r
     ∧ subscriber r' = subscriber r)
  ∧ (∀ info (H : MessageHandler) at_build c w0 w1,
       H c m w0 = (Some e, w1) →
       callback (build_chain [] info H at_build).1 c m w0 = w1
       ∧ callback (build_chain [pm_autoack.SubscriptionInterceptor] info H at_build).1
           c m w0
         = Nack m w1
       ∧ trace (callback
                  (build_chain [pm_autoack.SubscriptionInterceptor] info H at_build).1
                  c m w0)
         = trace w1 ++ [EvNack m]).
Proof.
  intros Ht Est Hlast. split.
  - cbn. rewrite Ht. cbn. rewrite Est. eexists. split; [reflexivity|].
    assert (Hw : callback last (t_ctx t) m (world r) = w')
      by (unfold callback; by rewrite Hlast).
    split_and!; try done.
    + cbn. by rewrite Hw.
    + unfold task_state. cbn.
      rewrite list_lookup_insert_eq by (by eapply lookup_lt_Some). done.
    + intros j Hne. cbn. by rewrite list_lookup_insert_ne.
  - intros info H at_build c w0 w1 HH.
    change (build_chain [pm_autoack.SubscriptionInterceptor] info H at_build).1
      with (pm_autoack.SubscriptionInterceptor info H at_build).1.
    change (build_chain [] info H at_build).1 with H.
    unfold callback. rewrite autoack_unfold, HH. done.
Qed.

Lemma handler_error_left_to_interceptors_witness :
  ∃ r',
    step (AEnd 0) (both_receiving (InCallback h_failing 7)) = Some r'
    ∧ world r' = one_message
    ∧ task_state r' 0 = Some (Receiving h_failing).
Proof.
  destruct (handler_error_left_to_interceptors
              (both_receiving (InCallback h_failing 7)) 0
              (task_a (InCallback h_failing 7)) h_failing 7 "boom" one_message
              eq_refl eq_refl eq_refl)
    as ((r' & Hstep & Hw & _ & Hst & _) & _).
  exists r'. split_and!; [exact Hstep | exact Hw | exact Hst].
Defined.

(** Registration never assigns the cancel function. *)
Lemma call_step_cancel s c s' c' :
  call_step s c = Some (s', c') → cancel s' = cancel s ∧ opts s' = opts s.
Proof.
  unfold call_step. destruct (pc c); cbn.
  - destruct (RW.RLock (mu s)); cbn; [|done]. by intros [= <- _].
  - destruct (subscriptionHandlers s !! _); by intros [= <- _].
  - destruct (RW.RUnlock (mu s)); cbn; [|done]. by intros [= <- _].
  - destruct (RW.Lock (mu s)); cbn; [|done]. by intros [= <- _].
  - by intros [= <- _].
  - destruct (RW.Unlock (mu s)); cbn; [|done]. by intros [= <- _].
  - done.
Qed.

Lemma call_run_cancel fuel :
  ∀ s c s' err, call_run fuel s c = Some (s', err) → cancel s' = cancel s.
Proof.
  induction fuel as [|fuel IH]; intros s c s' err; cbn.
  - destruct (pc c); try done. by intros [= <- _].
  - destruct (pc c) eqn:E; try (by intros [= <- _]).
    all: destruct (call_step s c) as [[s1 c1]|] eqn:Hstep; [|done].
    all: intros Hrun; apply IH in Hrun; rewrite Hrun.
    all: by apply call_step_cancel in Hstep as [-> _].
Qed.

(** C10. [Close] never panics. On a subscriber whose cancel function is
    nil, as [NewSubscriber] makes it and as every registration leaves it,
    [Close] changes nothing; and a second [Close] after a first one
    returns just as well and changes nothing more. *)
Theorem Close_without_Run_is_noop :
  (∀ r, cancel (subscriber r) = None → Close r = Some r)
  ∧ (∀ o w, Close (boot (NewSubscriber o) w) = Some (boot (NewSubscriber o) w))
  ∧ (∀ s sub f s' err w,
       cancel s = None →
       HandleSubscriptionFunc s sub f = Some (s', err) →
       Close (boot s' w) = Some (boot s' w))
  ∧ (∀ r, ∃ r', Close r = Some r' ∧ Close r' = Some r').
Proof.
  assert (Hnil : ∀ r, cancel (subscriber r) = None → Close r = Some r)
    by (intros r Hc; unfold Close; by rewrite Hc).
  split_and!; [done| | |].
  - intros o w. by apply Hnil.
  - intros s sub f s' err w Hc Hreg. apply Hnil. cbn.
    apply call_run_cancel in Hreg. congruence.
  - intros r. unfold Close.
    destruct (cancel (subscriber r)) as [id|] eqn:Hc; cbn.
    + eexists. split; [reflexivity|]. cbn. rewrite Hc. cbn.
      unfold with_cancelled. cbn. do 2 f_equal.
      by rewrite (assoc_L (∪)), (idemp_L (∪)).
    + exists r. by rewrite Hc.
Qed.

Lemma Close_without_Run_is_noop_witness :
  Close (boot with_a_registered empty_world) = Some (boot with_a_registered empty_world).
Proof.
  destruct Close_without_Run_is_noop as (Hnil & _).
  apply (Hnil (boot with_a_registered empty_world)). reflexivity.
Defined.

(** ** More on sequential registration *)

(** X1. A registration under an id that is free, on a lock that is free,
    returns nil; afterwards the id leads to the given handle and
    function, every other id leads to what it led to before, the registry
    has one entry more and the lock is free again. *)
Theorem HandleSubscriptionFunc_registers
    (s : Subscriber) (sub : PubsubSubscriber) (f : MessageHandler) :
  mu s = {| readers := 0; writer := false |} →
  subscriptionHandlers s !! ID sub = None →
  ∃ s',
    HandleSubscriptionFunc s sub f = Some (s', None)
    ∧ subscriptionHandlers s' !! ID sub
      = Some {| subscription := sub; handleFunc := f |}
    ∧ (∀ k, k ≠ ID sub → subscriptionHandlers s' !! k = subscriptionHandlers s !! k)
    ∧ size (subscriptionHandlers s') = S (size (subscriptionHandlers s))
    ∧ mu s' = mu s ∧ opts s' = opts s ∧ cancel s' = cancel s.
Proof.
  intros Hmu Hnone. rewrite (HandleSubscriptionFunc_fresh s sub f Hmu Hnone).
  eexists. split; [reflexivity|]. cbn. split_and!; try done.
  - apply lookup_insert_eq.
  - intros k Hk. by rewrite lookup_insert_ne.
  - by apply map_size_insert_None.
Qed.

Lemma HandleSubscriptionFunc_registers_witness :
  ∃ s',
    HandleSubscriptionFunc (NewSubscriber no_interceptors) sub_b h_third = Some (s', None)
    ∧ subscriptionHandlers s' !! "b"
      = Some {| subscription := sub_b; handleFunc := h_third |}.
Proof.
  destruct (HandleSubscriptionFunc_registers (NewSubscriber no_interceptors)
              sub_b h_third eq_refl (lookup_empty _))
    as (s' & Hreg & Hlook & _).
  exists s'. split; [exact Hreg | exact Hlook].
Defined.

(** The duplicate branch, in one equation. *)
Lemma HandleSubscriptionFunc_duplicate_eq s sub f h :
  writer (mu s) = false →
  subscriptionHandlers s !! ID sub = Some h →
  HandleSubscriptionFunc s sub f =
    Some (with_mu s {| readers := S (readers (mu s)); writer := false |},
          Some (already_registered (ID sub))).
Proof.
  intros Hw Hsome. destruct s as [[n wr] o hs c]; simpl in *. subst wr.
  unfold HandleSubscriptionFunc, call. cbn. by rewrite Hsome.
Qed.

(** X2. Once a duplicate has been turned away, the subscriber takes no
    new subscription any more: a registration under a free id waits at
    [s.mu.Lock()] however long it is given, because the rejected call
    left its read lock held. Duplicates are still turned away. *)
Theorem HandleSubscriptionFunc_stuck_after_rejection
    (s : Subscriber) (dup new : PubsubSubscriber) (f : MessageHandler)
    (h : subscriptionHandler) :
  writer (mu s) = false →
  subscriptionHandlers s !! ID dup = Some h →
  subscriptionHandlers s !! ID new = None →
  ∃ s',
    HandleSubscriptionFunc s dup f = Some (s', Some (already_registered (ID dup)))
    ∧ (∀ fuel g, call_run fuel s' (call new g) = None)
    ∧ (∀ g, ∃ s'', HandleSubscriptionFunc s' dup g
                    = Some (s'', Some (already_registered (ID dup)))).
Proof.
  intros Hw Hdup Hnew.
  pose proof (HandleSubscriptionFunc_duplicate_eq s dup f h Hw Hdup) as Hcall.
  eexists. split_and!; [exact Hcall| |].
  - intros fuel g. apply HandleSubscriptionFunc_blocks_after_leak; cbn; [lia|done].
  - intros g. eexists.
    by apply (HandleSubscriptionFunc_duplicate_eq _ dup g h).
Qed.

Lemma HandleSubscriptionFunc_stuck_after_rejection_witness :
  ∃ s',
    HandleSubscriptionFunc with_a_registered sub_a' h_second
      = Some (s', Some (already_registered "a"))
    ∧ HandleSubscriptionFunc s' sub_b h_third = None.
Proof.
  destruct (HandleSubscriptionFunc_stuck_after_rejection with_a_registered
              sub_a' sub_b h_second
              {| subscription := sub_a; handleFunc := h_first |}
              eq_refl ltac:(vm_compute; reflexivity) ltac:(vm_compute; reflexivity))
    as (s' & Hcall & Hblock & _).
  exists s'. split; [exact Hcall | apply Hblock].
Defined.

(** ** More on the chain and the pipeline *)

(** X3. Chains compose: building the chain of [ics1 ++ ics2] around [H]
    is building the chain of [ics2] around [H] and then the chain of
    [ics1] around the result, in the world the first build left. *)
Theorem build_chain_app
    (info : SubscriptionInfo) (ics1 ics2 : list SubscriptionInterceptor)
    (H : MessageHandler) (w : World) :
  build_chain (ics1 ++ ics2) info H w
  = build_chain ics1 info (build_chain ics2 info H w).1
                          (build_chain ics2 info H w).2.
Proof.
  rewrite !build_chain_foldr, foldr_app.
  by destruct (foldr (wrap info) (H, w) ics2).
Qed.

Lemma exec_app acts1 acts2 r :
  exec (acts1 ++ acts2) r = exec acts1 r ≫= exec acts2.
Proof.
  revert r. induction acts1 as [|a acts1 IH]; intros r; cbn; [done|].
  destruct (step a r); cbn; [apply IH | done].
Qed.

(** X4. A goroutine inside [Receive] whose context is not done handles
    the messages it is handed one by one, in order, each with the same
    handler: the world afterwards is the world the handler calls leave
    one after the other, whether they return errors or not, and the
    goroutine is inside [Receive] as before. *)
Theorem deliveries_fold
    (ms : list MsgRef) (r : Runtime) (i : nat) (t : Task) (last : MessageHandler) :
  tasks r !! i = Some t →
  t_state t = Receiving last →
  ctx_done (cancelled r) (t_ctx t) = false →
  ∃ r',
    exec (deliveries i ms) r = Some r'
    ∧ world r' = foldl (λ w m, (last (t_ctx t) m w).2) (world r) ms
    ∧ tasks r' = tasks r
    ∧ cancelled r' = cancelled r
    ∧ subscriber r' = subscriber r.
Proof.
  revert r. induction ms as [|m ms IH]; intros r Ht Est Hlive.
  - exists r. by cbn.
  - set (r1 := with_task r i t (callback last (t_ctx t) m (world r))).
    assert (Hstep : exec [ABegin i m; AEnd i] r = Some r1).
    { cbn. rewrite Ht. cbn. rewrite Est.
      unfold Receive_may_deliver. rewrite Est, Hlive. cbn.
      rewrite list_lookup_insert_eq by (by eapply lookup_lt_Some). cbn.
      unfold r1, with_task. cbn. rewrite list_insert_insert_eq.
      do 2 f_equal. destruct t; cbn in *. by subst. }
    assert (Htasks : tasks r1 = tasks r).
    { unfold r1. cbn. by apply list_insert_id. }
    destruct (IH r1) as (r' & Hex & Hw & Hts & Hc & Hs).
    + by rewrite Htasks.
    + done.
    + done.
    + exists r'. split_and!.
      * change (deliveries i (m :: ms)) with ([ABegin i m; AEnd i] ++ deliveries i ms).
        rewrite exec_app, Hstep. exact Hex.
      * rewrite Hw. done.
      * by rewrite Hts.
      * by rewrite Hc.
      * by rewrite Hs.
Qed.

Lemma deliveries_fold_witness :
  ∃ r',
    exec (deliveries 0 [7; 7]) (both_receiving (Receiving h_failing)) = Some r'
    ∧ world r' = one_message
    ∧ tasks r' = tasks (both_receiving (Receiving h_failing)).
Proof.
  destruct (deliveries_fold [7; 7] (both_receiving (Receiving h_failing)) 0
              (task_a (Receiving h_failing)) h_failing
              eq_refl eq_refl ltac:(vm_compute; reflexivity))
    as (r' & Hex & Hw & Hts & _).
  exists r'. split_and!; [exact Hex | exact Hw | exact Hts].
Defined.

(** X5. [Run] called a second time replaces the cancel function kept in
    the subscriber and starts a second goroutine for every registered
    subscription. [Close] then cancels the second context only: the
    goroutines of the first [Run] keep a context that is not done (as
    long as the context given to the first [Run] is not), those of the
    second [Run] are done. *)
Theorem Run_twice_Close_reaches_second_only
    (s : Subscriber) (w : World) (ctx1 ctx2 : Context) :
  ctx_done {[1]} ctx1 = false →
  ∃ r',
    Close (Run ctx2 (Run ctx1 (boot s w))) = Some r'
    ∧ cancel (subscriber r') = Some 1
    ∧ length (tasks r') = 2 * size (subscriptionHandlers s)
    ∧ (∀ i t, tasks r' !! i = Some t →
         i < size (subscriptionHandlers s) →
         t_ctx t = WithCancel ctx1 0
         ∧ ctx_done (cancelled r') (t_ctx t) = false)
    ∧ (∀ i t, tasks r' !! i = Some t →
         size (subscriptionHandlers s) ≤ i →
         t_ctx t = WithCancel ctx2 1
         ∧ ctx_done (cancelled r') (t_ctx t) = true).
Proof.
  intros Hlive.
  set (r2 := Run ctx2 (Run ctx1 (boot s w))).
  destruct (Close_total r2) as [r' Hclose]. exists r'.
  destruct (Close_inv _ _ Hclose) as (Hs & Ht & _).
  assert (Hc : cancelled r' = {[1]}).
  { revert Hclose. unfold Close, r2. cbn [subscriber Run cancel call_cancel boot
      next_ctx cancelled mbind option_bind]. intros [= <-].
    cbn [cancelled with_cancelled Run boot]. apply union_empty_r_L. }
  set (vals := (map_to_list (subscriptionHandlers s)).*2).
  assert (Hvals : length vals = size (subscriptionHandlers s))
    by (unfold vals; rewrite length_fmap; apply length_map_to_list).
  assert (Htasks : tasks r' = (spawn (WithCancel ctx1 0) <$> vals)
                              ++ (spawn (WithCancel ctx2 1) <$> vals))
    by (rewrite Ht; reflexivity).
  split_and!.
  - done.
  - by rewrite Hs.
  - rewrite Htasks, length_app, !length_fmap. lia.
  - intros i t Hi Hlt. rewrite Htasks in Hi.
    rewrite lookup_app_l in Hi by (rewrite length_fmap; lia).
    apply list_lookup_fmap_Some in Hi as (h & -> & _).
    split; [done|]. rewrite Hc. cbn. rewrite Hlive.
    rewrite bool_decide_eq_false_2; [done|].
    intros Hin%elem_of_singleton. done.
  - intros i t Hi Hge. rewrite Htasks in Hi.
    rewrite lookup_app_r in Hi by (rewrite length_fmap; lia).
    apply list_lookup_fmap_Some in Hi as (h & -> & _).
    split; [done|]. rewrite Hc. cbn. rewrite bool_decide_eq_true_2; [done|].
    by apply elem_of_singleton.
Qed.

Lemma Run_twice_Close_reaches_second_only_witness :
  ∃ r',
    Close (Run Background (Run Background (boot test_subscriber one_message)))
      = Some r'
    ∧ cancel (subscriber r') = Some 1
    ∧ length (tasks r') = 2 * size (subscriptionHandlers test_subscriber).
Proof.
  destruct (Run_twice_Close_reaches_second_only test_subscriber one_message
              Background Background eq_refl)
    as (r' & Hclose & Hcancel & Hlen & _).
  exists r'. split_and!; [exact Hclose | exact Hcancel | exact Hlen].
Defined.

(** ** Registration under arbitrary schedules *)

Lemma call_step_move s c s' c' :
  call_step s c = Some (s', c') → call_move s c s' c'.
Proof.
  unfold call_step. destruct (pc c) eqn:Epc.
  - unfold RW.RLock. destruct (writer (mu s)) eqn:Ew; cbn; [done|].
    intros [= <- <-]. by constructor.
  - destruct (subscriptionHandlers s !! ID (arg_subscription c)) as [h|] eqn:El;
      intros [= <- <-]; [by eapply move_duplicate | by apply move_free].
  - unfold RW.RUnlock. destruct (readers (mu s)) as [|n] eqn:Er; cbn; [done|].
    intros [= <- <-]. by eapply move_RUnlock.
  - unfold RW.Lock. destruct (writer (mu s)) eqn:Ew; cbn; [done|].
    destruct (readers (mu s)) eqn:Er; cbn; [|done].
    intros [= <- <-]. by apply move_Lock.
  - intros [= <- <-]. by apply move_Insert.
  - unfold RW.Unlock. destruct (writer (mu s)) eqn:Ew; cbn; [|done].
    intros [= <- <-]. by apply move_Unlock.
  - done.
Qed.

Lemma pool_step_move i st st' :
  pool_step i st = Some st' →
  ∃ c c', st.2 !! i = Some c ∧ call_move st.1 c st'.1 c'
          ∧ st'.2 = <[i := c']> st.2.
Proof.
  unfold pool_step. destruct (st.2 !! i) as [c|] eqn:Hi; cbn; [|done].
  destruct (call_step st.1 c) as [[s' c']|] eqn:Hstep; cbn; [|done].
  intros [= <-]. exists c, c'. split_and!; try done. by apply call_step_move.
Qed.

(** What every move of every call keeps is kept by every schedule. *)
Lemma pool_run_invariant (P : Subscriber → list Call → Prop) :
  (∀ s cs i c s' c',
     P s cs → cs !! i = Some c → call_move s c s' c' → P s' (<[i := c']> cs)) →
  ∀ sched st st',
    P st.1 st.2 → pool_run sched st = Some st' → P st'.1 st'.2.
Proof.
  intros Hkeep. induction sched as [|i sched IH]; intros st st' HP Hrun;
    cbn in Hrun.
  - by injection Hrun as <-.
  - destruct (pool_step i st) as [st1|] eqn:Hstep; cbn in Hrun; [|done].
    apply pool_step_move in Hstep as (c & c' & Hi & Hmove & Hcs).
    apply (IH st1); [|done]. rewrite Hcs. by eapply Hkeep.
Qed.

Lemma sum_list_with_lookup_two {A} (f : A → nat) (l : list A) i j a b :
  i ≠ j → l !! i = Some a → l !! j = Some b →
  f a + f b ≤ sum_list_with f l.
Proof.
  revert i j. induction l as [|x l IH]; intros [|i] [|j] Hne Hi Hj;
    simpl in *; try done.
  - injection Hi as ->.
    pose proof (sum_list_with_in b f l (list_elem_of_lookup_2 _ _ _ Hj)). lia.
  - injection Hj as ->.
    pose proof (sum_list_with_in a f l (list_elem_of_lookup_2 _ _ _ Hi)). lia.
  - assert (i ≠ j) by congruence. specialize (IH _ _ H Hi Hj). lia.
Qed.

Lemma holds_read_at c p :
  holds_read (at_pc c p)
  = match p with AtCheck | AtRUnlock | Returned (Some _) => 1 | _ => 0 end.
Proof. reflexivity. Qed.

Lemma holds_write_at c p :
  holds_write (at_pc c p) = match p with AtInsert | AtUnlock => 1 | _ => 0 end.
Proof. reflexivity. Qed.

Lemma lock_inv_move leaked s cs i c s' c' :
  lock_inv leaked s cs → cs !! i = Some c → call_move s c s' c' →
  lock_inv leaked s' (<[i := c']> cs).
Proof.
  intros (Hr & Hw & Hex) Hi Hmove. unfold lock_inv.
  pose proof (sum_list_with_insert holds_read cs i c c' Hi) as HR.
  pose proof (sum_list_with_insert holds_write cs i c c' Hi) as HW.
  assert (HRc : holds_read c = match pc c with
                               | AtCheck | AtRUnlock | Returned (Some _) => 1
                               | _ => 0
                               end) by reflexivity.
  assert (HWc : holds_write c = match pc c with
                                | AtInsert | AtUnlock => 1
                                | _ => 0
                                end) by reflexivity.
  destruct Hmove as [Epc Ew|h Epc El|Epc El|n Epc Er|Epc Er Ew|Epc|Epc Ew];
    rewrite Epc in HRc, HWc; rewrite HRc in HR; rewrite HWc in HW;
    rewrite holds_read_at in HR; rewrite holds_write_at in HW;
    cbv beta iota in HR, HW;
    cbn [mu with_mu with_handlers readers writer].
  - rewrite Ew in *. split_and!; [lia | lia | done].
  - split_and!; [lia | lia | done].
  - split_and!; [lia | lia | done].
  - destruct (writer (mu s)) eqn:Ew.
    + specialize (Hex eq_refl). lia.
    + split_and!; [lia | lia | done].
  - rewrite Ew in *. split_and!; [lia | lia | done].
  - split_and!; [lia | lia | done].
  - rewrite Ew in *. split_and!; [lia | lia | done].
Qed.

Lemma fresh_calls_hold_nothing entries :
  sum_list_with holds_read (fresh_calls entries) = 0
  ∧ sum_list_with holds_write (fresh_calls entries) = 0.
Proof. induction entries as [|e l [IH1 IH2]]; simpl; [done|]. by rewrite IH1, IH2. Qed.

(** X6. Under every schedule of any number of concurrent registrations,
    started on a lock no writer holds: the read locks held are those held
    before plus one for every call between [RLock] and [RUnlock] and one
    for every call that returned the duplicate error; and while a call is
    between [Lock] and [Unlock] (at the insert), the write lock is held,
    no read lock is held and no other call is at the check, at the insert
    or between them. *)
Theorem registration_lock_discipline
    (sched : list nat) (s0 : Subscriber) (entries : FuncMap)
    (st : Subscriber * list Call) :
  writer (mu s0) = false →
  pool_run sched (s0, fresh_calls entries) = Some st →
  readers (mu st.1) = readers (mu s0) + sum_list_with holds_read st.2
  ∧ ∀ i c, st.2 !! i = Some c → holds_write c = 1 →
      writer (mu st.1) = true
      ∧ readers (mu st.1) = 0
      ∧ ∀ j c', j ≠ i → st.2 !! j = Some c' →
          holds_write c' = 0 ∧ holds_read c' = 0.
Proof.
  intros Hw0 Hrun.
  assert (Hinv : lock_inv (readers (mu s0)) st.1 st.2).
  { eapply (pool_run_invariant (lock_inv (readers (mu s0)))
              (lock_inv_move _) sched); [|exact Hrun].
    destruct (fresh_calls_hold_nothing entries) as [HR HW].
    unfold lock_inv. cbn. rewrite HR, HW, Hw0. split_and!; [lia|done|done]. }
  destruct Hinv as (Hr & Hw & Hex). split; [done|].
  intros i c Hi Hc.
  pose proof (sum_list_with_in c holds_write st.2 (list_elem_of_lookup_2 _ _ _ Hi))
    as Hle.
  destruct (writer (mu st.1)) eqn:Ew; [|lia].
  specialize (Hex eq_refl). split_and!; [done|done|].
  intros j c' Hne Hj.
  pose proof (sum_list_with_lookup_two holds_write st.2 i j c c'
                ltac:(congruence) Hi Hj) as H2.
  pose proof (sum_list_with_in c' holds_read st.2 (list_elem_of_lookup_2 _ _ _ Hj))
    as H3.
  lia.
Qed.

Lemma registration_lock_discipline_witness :
  ∃ st,
    pool_run [0; 0; 0; 0] racing_calls = Some st
    ∧ results st.2 = [None; None]
    ∧ writer (mu st.1) = true
    ∧ readers (mu st.1) = 0.
Proof.
  assert (Hrun : pool_run [0; 0; 0; 0] racing_calls
                 = Some ({| mu := {| readers := 0; writer := true |};
                            opts := no_interceptors;
                            subscriptionHandlers := ∅;
                            cancel := None |},
                         [at_pc (call sub_a h_first) AtInsert;
                          call sub_a' h_second])).
  { vm_compute. reflexivity. }
  eexists. split; [exact Hrun|]. split; [reflexivity|].
  destruct (registration_lock_discipline [0; 0; 0; 0]
              (NewSubscriber no_interceptors)
              [(sub_a, h_first); (sub_a', h_second)] _ eq_refl Hrun)
    as (_ & Hwr).
  destruct (Hwr 0 _ eq_refl eq_refl) as (Hw & Hr & _).
  split; [exact Hw | exact Hr].
Defined.

(** X7. Under every schedule of a batch of concurrent registrations the
    registry only gains: an id that was registered stays registered;
    every entry afterwards is an entry from before or the entry of one of
    the batch, stored under the id of its own handle; entries stay keyed
    by the id of their handle; options and cancel function are left
    alone. *)
Theorem registry_after_batch
    (sched : list nat) (s0 : Subscriber) (entries : FuncMap)
    (st : Subscriber * list Call) :
  keyed_by_id s0 →
  pool_run sched (s0, fresh_calls entries) = Some st →
  keyed_by_id st.1
  ∧ (∀ k, is_Some (subscriptionHandlers s0 !! k) →
          is_Some (subscriptionHandlers st.1 !! k))
  ∧ from_before_or_batch s0 entries st.1
  ∧ opts st.1 = opts s0
  ∧ cancel st.1 = cancel s0.
Proof.
  intros Hk0 Hrun.
  set (P := λ (s : Subscriber) (cs : list Call),
         Forall (λ c, (arg_subscription c, arg_f c) ∈ entries) cs
         ∧ keyed_by_id s
         ∧ (∀ k, is_Some (subscriptionHandlers s0 !! k) →
                 is_Some (subscriptionHandlers s !! k))
         ∧ from_before_or_batch s0 entries s
         ∧ opts s = opts s0 ∧ cancel s = cancel s0).
  assert (HP : P st.1 st.2).
  { eapply (pool_run_invariant P); [| |exact Hrun].
    - intros s cs i c s' c' (Hargs & Hkey & Hgrow & Hfrom & Ho & Hc) Hi Hmove.
      pose proof (proj1 (Forall_lookup _ _) Hargs i c Hi) as Hin.
      assert (Hargs' : ∀ p, Forall (λ c, (arg_subscription c, arg_f c) ∈ entries)
                              (<[i := at_pc c p]> cs))
        by (intros p; by apply Forall_insert).
      unfold keyed_by_id, from_before_or_batch in *.
      destruct Hmove; unfold P, keyed_by_id, from_before_or_batch;
        cbn [opts cancel subscriptionHandlers with_mu with_handlers];
        split_and!; try done.
      + intros k h. destruct (decide (call_id c = k)) as [<-|Hne].
        * rewrite lookup_insert_eq. by intros [= <-].
        * rewrite lookup_insert_ne by done. apply Hkey.
      + intros k Hsome. destruct (decide (call_id c = k)) as [<-|Hne].
        * rewrite lookup_insert_eq. eauto.
        * rewrite lookup_insert_ne by done. by apply Hgrow.
      + intros k h. destruct (decide (call_id c = k)) as [<-|Hne].
        * rewrite lookup_insert_eq. intros [= <-]. right.
          exists (arg_subscription c, arg_f c). split_and!; done.
        * rewrite lookup_insert_ne by done. apply Hfrom.
    - unfold P. cbn. split_and!; try done.
      + unfold fresh_calls. apply Forall_fmap, Forall_forall.
        intros [sub f] Hin. done.
      + intros k h Hkh. by left. }
  destruct HP as (_ & ? & ? & ? & ? & ?). done.
Qed.

Lemma registry_after_batch_witness :
  ∃ st,
    pool_run (both_checked_then_first_inserts ++ then_second_inserts) racing_calls
      = Some st
    ∧ keyed_by_id st.1
    ∧ from_before_or_batch (NewSubscriber no_interceptors)
        [(sub_a, h_first); (sub_a', h_second)] st.1.
Proof.
  eexists. split; [vm_compute; reflexivity|].
  destruct (registry_after_batch
              (both_checked_then_first_inserts ++ then_second_inserts)
              (NewSubscriber no_interceptors)
              [(sub_a, h_first); (sub_a', h_second)] _
              ltac:(intros k h Hk; cbn in Hk; by rewrite lookup_empty in Hk)
              ltac:(vm_compute; reflexivity))
    as (Hkey & _ & Hfrom & _).
  split; [exact Hkey | exact Hfrom].
Defined.

(** ** The group of [HandleSubscriptionFuncMap] *)

Lemma eg_step_cases i st st' :
  eg_step i st = Some st' →
  ∃ x, goroutines st.2 !! i = Some x ∧ g_done x = false
       ∧ ((∃ e, pc (g_call x) = Returned e
                ∧ st'.1 = st.1
                ∧ goroutines st'.2
                  = <[i := {| g_call := g_call x; g_done := true |}]> (goroutines st.2)
                ∧ g_err st'.2 = errOnce (g_err st.2) e)
          ∨ (∃ c', call_move st.1 (g_call x) st'.1 c'
                   ∧ goroutines st'.2
                     = <[i := {| g_call := c'; g_done := false |}]> (goroutines st.2)
                   ∧ g_err st'.2 = g_err st.2)).
Proof.
  unfold eg_step. destruct (goroutines st.2 !! i) as [x|] eqn:Hi; cbn; [|done].
  destruct (g_done x) eqn:Hd; [done|].
  destruct (pc (g_call x)) eqn:Epc.
  7: { intros [= <-]. exists x. split_and!; try done. left. eauto. }
  all: destruct (call_step st.1 (g_call x)) as [[s' c']|] eqn:Hstep; cbn; [|done].
  all: intros [= <-]; exists x; split_and!; try done; right; exists c'.
  all: split_and!; try done; by apply call_step_move.
Qed.

Lemma eg_step_group_inv i st st' :
  group_inv st.2 → eg_step i st = Some st' → group_inv st'.2.
Proof.
  intros (H1 & H2 & H3) Hstep.
  apply eg_step_cases in Hstep
    as (x & Hi & Hd & [(e & Epc & _ & Hg & He)|(c' & _ & Hg & He)]).
  - unfold group_inv. rewrite Hg, He. split_and!.
    + apply Forall_insert; [done|]. cbn. eauto.
    + intros Hnone. destruct e as [m|], (g_err st.2) as [m'|] eqn:Ee; try done.
      apply Forall_insert; [by apply H2|]. done.
    + intros m Hm. destruct (g_err st.2) as [m'|] eqn:Ee.
      * assert (m' = m) as -> by (destruct e; cbn in Hm; congruence).
        destruct (H3 m eq_refl) as (j & y & Hj & Hdy & Hpy).
        exists j, y. split_and!; try done.
        rewrite list_lookup_insert_ne; [done|]. intros ->. congruence.
      * destruct e as [m0|]; cbn in Hm; [|done]. injection Hm as ->.
        exists i, {| g_call := g_call x; g_done := true |}. split_and!; try done.
        apply list_lookup_insert_eq. by eapply lookup_lt_Some.
  - unfold group_inv. rewrite Hg, He. split_and!.
    + apply Forall_insert; [done|]. done.
    + intros Hnone. apply Forall_insert; [by apply H2|]. done.
    + intros m Hm. destruct (H3 m Hm) as (j & y & Hj & Hdy & Hpy).
      exists j, y. split_and!; try done.
      rewrite list_lookup_insert_ne; [done|]. intros ->. congruence.
Qed.

Lemma eg_run_group_inv sched :
  ∀ st st', group_inv st.2 → eg_run sched st = Some st' →
            group_inv st'.2
            ∧ length (goroutines st'.2) = length (goroutines st.2).
Proof.
  induction sched as [|i sched IH]; intros st st' Hinv Hrun; cbn in Hrun.
  - by injection Hrun as <-.
  - destruct (eg_step i st) as [st1|] eqn:Hstep; cbn in Hrun; [|done].
    destruct (IH _ _ (eg_step_group_inv _ _ _ Hinv Hstep) Hrun) as (? & Hlen).
    split; [done|]. rewrite Hlen.
    apply eg_step_cases in Hstep
      as (x & _ & _ & [(e & _ & _ & -> & _)|(c' & _ & -> & _)]);
      by rewrite length_insert.
Qed.

(** X8. Whatever the schedule, when [eg.Wait()] of
    [HandleSubscriptionFuncMap] returns, every registration of the batch
    has returned; it returns nil exactly when all of them returned nil,
    and an error it returns is the error one of them returned. *)
Theorem HandleSubscriptionFuncMap_result
    (sched : list nat) (s : Subscriber) (funcMap : FuncMap)
    (st : Subscriber * Group) (err : error) :
  eg_run sched (s, spawn_all funcMap) = Some st →
  Wait st.2 = Some err →
  HandleSubscriptionFuncMap sched s funcMap = Some (st.1, Some err)
  ∧ length (goroutines st.2) = length funcMap
  ∧ Forall (λ x, ∃ e, pc (g_call x) = Returned e) (goroutines st.2)
  ∧ (err = None ↔ Forall (λ x, pc (g_call x) = Returned None) (goroutines st.2))
  ∧ (∀ m, err = Some m →
       ∃ x, x ∈ goroutines st.2 ∧ pc (g_call x) = Returned (Some m)).
Proof.
  intros Hrun Hwait.
  assert (Hinit : group_inv (s, spawn_all funcMap).2).
  { unfold group_inv, spawn_all. cbn. split_and!.
    - apply Forall_fmap, Forall_true. done.
    - intros _. apply Forall_fmap, Forall_true. done.
    - done. }
  destruct (eg_run_group_inv sched _ _ Hinit Hrun) as ((H1 & H2 & H3) & Hlen).
  unfold Wait in Hwait.
  destruct (forallb g_done (goroutines st.2)) eqn:Hall; [|done].
  injection Hwait as <-.
  assert (Hdone : Forall (λ x, g_done x = true) (goroutines st.2)).
  { apply Forall_forall. intros x Hx.
    rewrite forallb_forall in Hall. apply Hall. by apply list_elem_of_In. }
  split_and!.
  - unfold HandleSubscriptionFuncMap. rewrite Hrun. cbn. unfold Wait.
    by rewrite (proj2 (forallb_forall _ _)
                  (λ x Hx, proj1 (Forall_forall _ _) Hdone x
                             (proj2 (list_elem_of_In _ _) Hx))).
  - rewrite Hlen. cbn. by rewrite length_fmap.
  - apply Forall_forall. intros x Hx.
    apply (proj1 (Forall_forall _ _) H1 x Hx).
    apply (proj1 (Forall_forall _ _) Hdone x Hx).
  - split.
    + intros Hnone. specialize (H2 Hnone).
      apply Forall_forall. intros x Hx.
      apply (proj1 (Forall_forall _ _) H2 x Hx).
      apply (proj1 (Forall_forall _ _) Hdone x Hx).
    + intros Hnil. destruct (g_err st.2) as [m|] eqn:Ee; [|done].
      destruct (H3 m eq_refl) as (j & x & Hj & _ & Hp).
      pose proof (proj1 (Forall_lookup _ _) Hnil j x Hj) as Hx. congruence.
  - intros m Hm. destruct (H3 m Hm) as (j & x & Hj & _ & Hp).
    exists x. split; [by eapply list_elem_of_lookup_2 | done].
Qed.

Lemma HandleSubscriptionFuncMap_result_witness :
  ∃ st,
    eg_run duplicate_last (with_a_registered, spawn_all batch_a_b) = Some st
    ∧ Wait st.2 = Some (Some (already_registered "a"))
    ∧ ∃ x, x ∈ goroutines st.2
           ∧ pc (g_call x) = Returned (Some (already_registered "a")).
Proof.
  eexists. split; [vm_compute; reflexivity|]. split; [vm_compute; reflexivity|].
  destruct (HandleSubscriptionFuncMap_result duplicate_last with_a_registered
              batch_a_b _ (Some (already_registered "a"))
              ltac:(vm_compute; reflexivity) ltac:(vm_compute; reflexivity))
    as (_ & _ & _ & _ & Herr).
  exact (Herr _ eq_refl).
Defined.

(** ** Batches under new, distinct ids *)






















